(** * A restricted expression evaluator: [notebooks/utils/_utils.py]

    Shallow embedding of the evaluator pipeline of the workshop utilities:
    [rewrite_implies] (infix keyword rewriting through a regular
    expression), [guard_none_comparisons] (missing-value guarding) and
    [safe_eval_expr] (tree validation followed by evaluation), together
    with the parts of the Python runtime these functions call: the
    backtracking regular-expression engine restricted to the constructs of
    the one pattern in use, the expression subset of the [ast] module, and
    an evaluator for the validated expression language. *)

From Stdlib Require Import ZArith NArith List Bool String Ascii Lia.
From Stdlib Require Import Floats.SpecFloat.
From stdpp Require Import base option list gmap.
From Equations Require Import Equations.
From Equations.Prop Require Import Logic.

Import ListNotations.
Local Open Scope list_scope.

(** ** Python strings

    A Python [str] is a sequence of Unicode code points; [ustring] keeps
    them as numbers.  [str] reads a literal of the source. *)

Abbreviation ustring := (list N).

Definition str (s : string) : ustring :=
  List.map N_of_ascii (list_ascii_of_string s).

(** [Py_UNICODE_ISSPACE]: what the class [\s] of a [str] pattern accepts. *)
Definition is_space (c : N) : bool :=
  ((9 <=? c) && (c <=? 13) || (28 <=? c) && (c <=? 32)
   || (c =? 133) || (c =? 160) || (c =? 5760)
   || (8192 <=? c) && (c <=? 8202)
   || (c =? 8232) || (c =? 8233) || (c =? 8239) || (c =? 8287)
   || (c =? 12288))%N.

(** The class [.] without the DOTALL flag: anything but a line feed. *)
Definition is_dot (c : N) : bool := negb (c =? 10)%N.

(** ** The regular expressions of [re] that the source uses

    Literal text, a character class under [+] (greedy) or [+?] (lazy),
    capture groups and concatenation. *)

Inductive charclass := ClsDot | ClsSpace.

Definition cls_match (k : charclass) : N -> bool :=
  match k with ClsDot => is_dot | ClsSpace => is_space end.

Inductive regex :=
| Lit (s : ustring)
| Plus (k : charclass) (greedy : bool)
| Group (r : regex)
| Seq (r1 r2 : regex).

(** One way of matching at a position: the text consumed, the captures of
    the groups closed on the way (in group order) and the text left. *)
Record attempt := Attempt {
  at_text : ustring;
  at_groups : list ustring;
  at_rest : ustring
}.

Fixpoint strip_prefix (p s : ustring) : option ustring :=
  match p, s with
  | [], _ => Some s
  | a :: p', b :: s' => if (a =? b)%N then strip_prefix p' s' else None
  | _ :: _, [] => None
  end.

(** The non-empty runs of class characters at the head of [s], shortest
    first, each with the text after it. *)
Fixpoint runs (f : N -> bool) (s : ustring) : list (ustring * ustring) :=
  match s with
  | c :: t =>
      if f c then ([c], t) :: List.map (fun pr => (c :: fst pr, snd pr)) (runs f t)
      else []
  | [] => []
  end.

(** The backtracking engine, as the list of all its attempts in the order
    it tries them: a lazy repetition tries the short runs first, a greedy
    one the long runs first, and a concatenation retries its right part
    for every attempt of its left part. *)
Fixpoint attempts (r : regex) (s : ustring) : list attempt :=
  match r with
  | Lit l =>
      match strip_prefix l s with
      | Some rest => [Attempt l [] rest]
      | None => []
      end
  | Plus k greedy =>
      List.map (fun pr => Attempt (fst pr) [] (snd pr))
        (if greedy then List.rev (runs (cls_match k) s) else runs (cls_match k) s)
  | Group r1 =>
      List.map (fun a => Attempt (at_text a) (at_text a :: at_groups a) (at_rest a))
        (attempts r1 s)
  | Seq r1 r2 =>
      List.flat_map (fun a =>
        List.map (fun b => Attempt (at_text a ++ at_text b)
                            (at_groups a ++ at_groups b) (at_rest b))
          (attempts r2 (at_rest a)))
        (attempts r1 s)
  end.

(** [re.match]-like: the first successful attempt at the head of [s]. *)
Definition match_here (r : regex) (s : ustring) : option attempt :=
  List.hd_error (attempts r s).

(** A match object of [re.search]: the text before the match, the match
    and its groups, and the text after it. *)
Record rmatch := RMatch {
  m_before : ustring;
  m_text : ustring;
  m_groups : list ustring;
  m_after : ustring
}.

(** [re.search]: the leftmost start position at which the pattern matches. *)
Fixpoint search_from (r : regex) (before s : ustring) : option rmatch :=
  match match_here r s with
  | Some a => Some (RMatch before (at_text a) (at_groups a) (at_rest a))
  | None =>
      match s with
      | [] => None
      | c :: t => search_from r (before ++ [c]) t
      end
  end.

Definition re_search (r : regex) (s : ustring) : option rmatch :=
  search_from r [] s.

(** Replacement templates: literal text and group references [\1], [\2]. *)
Inductive titem := TLit (s : ustring) | TGroup (n : nat).

Definition expand (tpl : list titem) (m : rmatch) : ustring :=
  List.concat (List.map (fun i =>
    match i with
    | TLit s => s
    | TGroup n => List.nth (Nat.pred n) (m_groups m) []
    end) tpl).

(** What [re.sub(pattern, repl, s, count=1)] makes of a match. *)
Definition replace_match (tpl : list titem) (m : rmatch) : ustring :=
  m_before m ++ expand tpl m ++ m_after m.

(** [re.sub(pattern, repl, s, count=1)]: the first match replaced. *)
Definition re_sub1 (r : regex) (tpl : list titem) (s : ustring) : ustring :=
  match re_search r s with
  | Some m => replace_match tpl m
  | None => s
  end.

(** ** [rewrite_implies] *)

Definition kw_implies : ustring := str "implies".

(** [pattern = r"(.+?)\s+implies\s+(.+)"] *)
Definition pattern : regex :=
  Seq (Group (Plus ClsDot false))
   (Seq (Plus ClsSpace true)
     (Seq (Lit kw_implies)
       (Seq (Plus ClsSpace true)
            (Group (Plus ClsDot true))))).

(** The replacement [r"implies(\1, \2)"] *)
Definition replacement : list titem :=
  [TLit (str "implies("); TGroup 1; TLit (str ", "); TGroup 2; TLit (str ")")].

(** The number of white-space characters: it drops at every turn of the
    loop of [rewrite_implies]. *)
Definition spaces (s : ustring) : nat := length (List.filter is_space s).

(** *** What the engine matches

    [matches r w gs]: the text [w] is an instance of [r], its groups
    capturing [gs]. *)
Inductive matches : regex -> ustring -> list ustring -> Prop :=
| matches_lit l : matches (Lit l) l []
| matches_plus k g w :
    w <> [] -> forallb (cls_match k) w = true -> matches (Plus k g) w []
| matches_group r w gs : matches r w gs -> matches (Group r) w (w :: gs)
| matches_seq r1 r2 w1 w2 gs1 gs2 :
    matches r1 w1 gs1 -> matches r2 w2 gs2 ->
    matches (Seq r1 r2) (w1 ++ w2) (gs1 ++ gs2).

Lemma strip_prefix_spec p s rest :
  strip_prefix p s = Some rest <-> s = p ++ rest.
Proof.
  revert s; induction p as [|a p IH]; intros s; simpl.
  - split; [intros [= ->]; reflexivity | intros ->; reflexivity].
  - destruct s as [|b s]; [split; discriminate|].
    destruct (N.eqb_spec a b) as [->|Hne].
    + rewrite IH. split; [intros ->; reflexivity | intros [= ->]; reflexivity].
    + split; [discriminate | intros [= -> _]; congruence].
Qed.

Lemma runs_spec f s w rest :
  In (w, rest) (runs f s) <-> s = w ++ rest /\ w <> [] /\ forallb f w = true.
Proof.
  revert w; induction s as [|c t IH]; intros w; simpl.
  - split; [intros [] | intros (H & Hw & _)].
    destruct w; [congruence | discriminate].
  - destruct (f c) eqn:Hc; simpl.
    + rewrite in_map_iff. split.
      * intros [[= <- <-] | ([w' r'] & [= <- <-] & Hin)].
        { simpl. rewrite Hc. repeat split; discriminate. }
        apply IH in Hin as (-> & _ & Hall). simpl. rewrite Hc.
        repeat split; [discriminate | exact Hall].
      * intros (H & Hw & Hall). destruct w as [|a w]; [congruence|].
        simpl in H, Hall. injection H as <- ->.
        apply andb_true_iff in Hall as [_ Hall].
        destruct w as [|b w]; [left; reflexivity | right].
        exists (b :: w, rest). split; [reflexivity|].
        apply IH. repeat split; [discriminate | exact Hall].
    + split; [intros [] | intros (H & Hw & Hall)].
      destruct w as [|a w]; [congruence|]. simpl in H, Hall.
      injection H as <- ->. rewrite Hc in Hall. discriminate.
Qed.

(** The attempts of the engine are exactly the instances of the pattern
    at the head of the text. *)
Lemma attempts_spec r s a :
  In a (attempts r s) <->
  s = at_text a ++ at_rest a /\ matches r (at_text a) (at_groups a).
Proof.
  revert s a; induction r as [l|k g|r IH|r1 IH1 r2 IH2]; intros s a; simpl.
  - destruct (strip_prefix l s) as [rest|] eqn:E.
    + apply strip_prefix_spec in E. subst s. simpl. split.
      * intros [<-|[]]. simpl. split; [reflexivity | constructor].
      * intros [H Hm]. left. destruct a as [w gs rest']; simpl in *.
        inversion Hm; subst. apply app_inv_head in H. congruence.
    + split; [intros [] | intros [H Hm]].
      destruct a as [w gs rest']; simpl in *. inversion Hm; subst.
      assert (strip_prefix w (w ++ rest') = Some rest')
        by (apply strip_prefix_spec; reflexivity).
      congruence.
  - rewrite in_map_iff. split.
    + intros ([w rest] & <- & Hin). simpl.
      assert (In (w, rest) (runs (cls_match k) s)) as Hin'
        by (destruct g; [apply in_rev in Hin|]; exact Hin).
      apply runs_spec in Hin' as (-> & Hw & Hall).
      split; [reflexivity | constructor; assumption].
    + intros [H Hm]. destruct a as [w gs rest]; simpl in *.
      inversion Hm; subst. exists (w, rest). split; [reflexivity|].
      assert (In (w, rest) (runs (cls_match k) (w ++ rest))) as Hin
        by (apply runs_spec; auto).
      destruct g; [apply in_rev; rewrite rev_involutive|]; exact Hin.
  - rewrite in_map_iff. split.
    + intros (b & <- & Hin). apply IH in Hin as [-> Hm]. simpl.
      split; [reflexivity | constructor; exact Hm].
    + intros [H Hm]. destruct a as [w gs rest]; simpl in *.
      inversion Hm; subst. exists (Attempt w gs0 rest). split; [reflexivity|].
      apply IH. simpl. auto.
  - rewrite in_flat_map. split.
    + intros (b & Hb & Hin). apply in_map_iff in Hin as (c & <- & Hc).
      apply IH1 in Hb as [-> Hb]. apply IH2 in Hc as [Hc1 Hc]. simpl.
      rewrite Hc1, <- app_assoc. split; [reflexivity | constructor; assumption].
    + intros [H Hm]. destruct a as [w gs rest]; simpl in *.
      inversion Hm; subst. exists (Attempt w1 gs1 (w2 ++ rest)). split.
      * apply IH1. simpl. rewrite <- app_assoc. auto.
      * apply in_map_iff. exists (Attempt w2 gs2 rest). split; [reflexivity|].
        apply IH2. simpl. auto.
Qed.

(** A match of [re.search] is an instance of the pattern inside the text. *)
Lemma search_from_sound r before s m :
  search_from r before s = Some m ->
  before ++ s = m_before m ++ m_text m ++ m_after m /\
  matches r (m_text m) (m_groups m).
Proof.
  revert before; induction s as [|c t IH]; intros before; simpl;
    unfold match_here; destruct (attempts r _) as [|a l] eqn:E; simpl.
  - discriminate.
  - intros [= <-]. simpl.
    assert (In a (attempts r [])) as Hin by (rewrite E; left; reflexivity).
    apply attempts_spec in Hin as [-> Hm]. auto.
  - intros H. apply IH in H as [H Hm]. rewrite <- app_assoc in H. auto.
  - intros [= <-]. simpl.
    assert (In a (attempts r (c :: t))) as Hin by (rewrite E; left; reflexivity).
    apply attempts_spec in Hin as [-> Hm]. auto.
Qed.

(** [re.search] misses no instance: when it returns [None] the text holds
    no instance of the pattern at any position. *)
Lemma search_from_complete r before s :
  search_from r before s = None ->
  forall pre w gs post, s = pre ++ w ++ post -> ~ matches r w gs.
Proof.
  revert before; induction s as [|c t IH]; intros before; simpl;
    unfold match_here; destruct (attempts r _) as [|a l] eqn:E; simpl;
    try discriminate; intros H pre w gs post Hs Hm.
  - destruct pre; [|discriminate]. simpl in Hs.
    assert (In (Attempt w gs post) (attempts r [])) as Hin
      by (apply attempts_spec; simpl; auto).
    rewrite E in Hin. destruct Hin.
  - destruct pre as [|c' pre].
    + simpl in Hs.
      assert (In (Attempt w gs post) (attempts r (c :: t))) as Hin
        by (apply attempts_spec; simpl; auto).
      rewrite E in Hin. destruct Hin.
    + injection Hs as <- Hs. exact (IH _ H pre w gs post Hs Hm).
Qed.

Lemma re_search_sound r s m :
  re_search r s = Some m ->
  s = m_before m ++ m_text m ++ m_after m /\ matches r (m_text m) (m_groups m).
Proof. intros H. apply search_from_sound in H. exact H. Qed.

Lemma re_search_complete r s :
  re_search r s = None ->
  forall pre w gs post, s = pre ++ w ++ post -> ~ matches r w gs.
Proof. apply search_from_complete. Qed.

(** The instances of [pattern], spelled out. *)
Lemma matches_pattern_inv w gs :
  matches pattern w gs ->
  exists g1 ws1 ws2 g2,
    w = g1 ++ ws1 ++ kw_implies ++ ws2 ++ g2 /\ gs = [g1; g2] /\
    g1 <> [] /\ forallb is_dot g1 = true /\
    ws1 <> [] /\ forallb is_space ws1 = true /\
    ws2 <> [] /\ forallb is_space ws2 = true /\
    g2 <> [] /\ forallb is_dot g2 = true.
Proof.
  unfold pattern. intros H.
  repeat match goal with
  | H : matches (Seq _ _) _ _ |- _ => inversion H; subst; clear H
  | H : matches (Group _) _ _ |- _ => inversion H; subst; clear H
  | H : matches (Plus _ _) _ _ |- _ => inversion H; subst; clear H
  | H : matches (Lit _) _ _ |- _ => inversion H; subst; clear H
  end.
  simpl in *. eexists _, _, _, _. repeat split; eauto.
Qed.

Lemma matches_pattern_intro g1 ws1 ws2 g2 :
  g1 <> [] -> forallb is_dot g1 = true ->
  ws1 <> [] -> forallb is_space ws1 = true ->
  ws2 <> [] -> forallb is_space ws2 = true ->
  g2 <> [] -> forallb is_dot g2 = true ->
  matches pattern (g1 ++ ws1 ++ kw_implies ++ ws2 ++ g2) [g1; g2].
Proof.
  intros. unfold pattern.
  change [g1; g2] with ((g1 :: []) ++ [] ++ [] ++ [] ++ (g2 :: [])).
  repeat constructor; assumption.
Qed.

Lemma spaces_app a b : spaces (a ++ b) = spaces a + spaces b.
Proof. unfold spaces. rewrite List.filter_app, List.length_app. reflexivity. Qed.

Lemma spaces_all ws : forallb is_space ws = true -> spaces ws = length ws.
Proof.
  unfold spaces. induction ws as [|c ws IH]; simpl; [reflexivity|].
  intros H. apply andb_true_iff in H as [-> H]. simpl. rewrite IH; auto.
Qed.

Lemma expand_replacement m g1 g2 :
  m_groups m = [g1; g2] ->
  expand replacement m = str "implies(" ++ g1 ++ str ", " ++ g2 ++ str ")".
Proof.
  intros H. unfold expand, replacement. cbn [List.map List.concat Nat.pred].
  rewrite H. cbn [List.nth]. rewrite app_nil_r. reflexivity.
Qed.

(** One replacement removes at least one white-space character. *)
Lemma replace_match_spaces s m :
  re_search pattern s = Some m ->
  spaces (replace_match replacement m) < spaces s.
Proof.
  intros H. apply re_search_sound in H as [Hs Hm].
  apply matches_pattern_inv in Hm
    as (g1 & ws1 & ws2 & g2 & Hw & Hg & _ & _ & Hn1 & Hs1 & Hn2 & Hs2 & _ & _).
  rewrite Hs. unfold replace_match. rewrite (expand_replacement m g1 g2 Hg), Hw.
  repeat rewrite spaces_app. rewrite (spaces_all ws1 Hs1), (spaces_all ws2 Hs2).
  change (spaces kw_implies) with 0.
  change (spaces (str "implies(")) with 0.
  change (spaces (str ", ")) with 1.
  change (spaces (str ")")) with 0.
  destruct ws1; [congruence|]. destruct ws2; [congruence|]. simpl. lia.
Qed.

(** The loop [while re.search(pattern, expr): expr = re.sub(pattern,
    r"implies(\1, \2)", expr, count=1)] and the [return expr] after it. *)
Equations? rewrite_implies (expr : ustring) : ustring by wf (spaces expr) lt :=
  rewrite_implies expr with inspect (re_search pattern expr) := {
    | exist _ (Some m) _ => rewrite_implies (re_sub1 pattern replacement expr);
    | exist _ None _ => expr }.
Proof.
  unfold re_sub1. rewrite e. apply replace_match_spaces. exact e.
Qed.

(** ** The syntax trees of the [ast] module

    The node classes that [ast.parse(..., mode="eval")] builds, with the
    field names of the Python grammar.  The expression classes outside the
    allowlist of the source are kept as [OtherExpr] with the class name and
    the expressions below them. *)
Module ast.

Inductive expr_context := Load | Store | Del.

Inductive boolop := And | Or.

Inductive operator :=
  Add | Sub | Mult | MatMult | Div | Mod | Pow
| LShift | RShift | BitOr | BitXor | BitAnd | FloorDiv.

Inductive unaryop := Invert | Not | UAdd | USub.

Inductive cmpop := Eq | NotEq | Lt | LtE | Gt | GtE | Is | IsNot | In | NotIn.

(** The value of a [Constant] node; [CStr] is a string literal and
    [COther] a bytes, complex or [...] literal. *)
Inductive constant :=
| CNone
| CBool (b : bool)
| CInt (z : Z)
| CFloat (f : spec_float)
| CStr (s : ustring)
| COther.

Inductive expr :=
| BoolOp (op : boolop) (values : list expr)
| BinOp (left : expr) (op : operator) (right : expr)
| UnaryOp (op : unaryop) (operand : expr)
| Compare (left : expr) (ops : list cmpop) (comparators : list expr)
| Call (func : expr) (args : list expr) (keywords : list (option ustring * expr))
| Constant (value : constant)
| Name (id : ustring) (ctx : expr_context)
| OtherExpr (kind : ustring) (fields : list expr).

(** [mode="eval"] always gives an [Expression]. *)
Inductive mod_ := Expression (body : expr).

(** Any node, as [ast.walk] yields them. *)
Inductive node :=
| N_mod (m : mod_)
| N_expr (e : expr)
| N_ctx (c : expr_context)
| N_boolop (o : boolop)
| N_operator (o : operator)
| N_unaryop (o : unaryop)
| N_cmpop (o : cmpop)
| N_keyword (k : option ustring * expr).

End ast.

(** [type(node).__name__] *)
Definition class_name (n : ast.node) : ustring :=
  match n with
  | ast.N_mod (ast.Expression _) => str "Expression"
  | ast.N_expr e =>
      match e with
      | ast.BoolOp _ _ => str "BoolOp"
      | ast.BinOp _ _ _ => str "BinOp"
      | ast.UnaryOp _ _ => str "UnaryOp"
      | ast.Compare _ _ _ => str "Compare"
      | ast.Call _ _ _ => str "Call"
      | ast.Constant _ => str "Constant"
      | ast.Name _ _ => str "Name"
      | ast.OtherExpr kind _ => kind
      end
  | ast.N_ctx c =>
      match c with
      | ast.Load => str "Load" | ast.Store => str "Store" | ast.Del => str "Del"
      end
  | ast.N_boolop o =>
      match o with ast.And => str "And" | ast.Or => str "Or" end
  | ast.N_operator o =>
      match o with
      | ast.Add => str "Add" | ast.Sub => str "Sub" | ast.Mult => str "Mult"
      | ast.MatMult => str "MatMult" | ast.Div => str "Div"
      | ast.Mod => str "Mod" | ast.Pow => str "Pow"
      | ast.LShift => str "LShift" | ast.RShift => str "RShift"
      | ast.BitOr => str "BitOr" | ast.BitXor => str "BitXor"
      | ast.BitAnd => str "BitAnd" | ast.FloorDiv => str "FloorDiv"
      end
  | ast.N_unaryop o =>
      match o with
      | ast.Invert => str "Invert" | ast.Not => str "Not"
      | ast.UAdd => str "UAdd" | ast.USub => str "USub"
      end
  | ast.N_cmpop o =>
      match o with
      | ast.Eq => str "Eq" | ast.NotEq => str "NotEq" | ast.Lt => str "Lt"
      | ast.LtE => str "LtE" | ast.Gt => str "Gt" | ast.GtE => str "GtE"
      | ast.Is => str "Is" | ast.IsNot => str "IsNot" | ast.In => str "In"
      | ast.NotIn => str "NotIn"
      end
  | ast.N_keyword _ => str "keyword"
  end.

(** [ast.iter_child_nodes]: the nodes held in the fields of a node, in
    field order. *)
Definition iter_child_nodes (n : ast.node) : list ast.node :=
  match n with
  | ast.N_mod (ast.Expression body) => [ast.N_expr body]
  | ast.N_expr e =>
      match e with
      | ast.BoolOp op values => ast.N_boolop op :: List.map ast.N_expr values
      | ast.BinOp l op r => [ast.N_expr l; ast.N_operator op; ast.N_expr r]
      | ast.UnaryOp op operand => [ast.N_unaryop op; ast.N_expr operand]
      | ast.Compare l ops comparators =>
          ast.N_expr l :: List.map ast.N_cmpop ops ++ List.map ast.N_expr comparators
      | ast.Call func args keywords =>
          ast.N_expr func :: List.map ast.N_expr args ++ List.map ast.N_keyword keywords
      | ast.Constant _ => []
      | ast.Name _ ctx => [ast.N_ctx ctx]
      | ast.OtherExpr _ fields => List.map ast.N_expr fields
      end
  | ast.N_keyword k => [ast.N_expr (snd k)]
  | _ => []
  end.

(** The number of nodes in a tree. *)
Fixpoint expr_size (e : ast.expr) : nat :=
  match e with
  | ast.BoolOp _ values => 2 + list_sum (List.map expr_size values)
  | ast.BinOp l _ r => 2 + expr_size l + expr_size r
  | ast.UnaryOp _ operand => 2 + expr_size operand
  | ast.Compare l ops comparators =>
      1 + expr_size l + length ops + list_sum (List.map expr_size comparators)
  | ast.Call func args keywords =>
      1 + expr_size func + list_sum (List.map expr_size args)
      + list_sum (List.map (fun k => 1 + expr_size (snd k)) keywords)
  | ast.Constant _ => 1
  | ast.Name _ _ => 2
  | ast.OtherExpr _ fields => 1 + list_sum (List.map expr_size fields)
  end.

Definition node_size (n : ast.node) : nat :=
  match n with
  | ast.N_mod (ast.Expression body) => 1 + expr_size body
  | ast.N_expr e => expr_size e
  | ast.N_keyword k => 1 + expr_size (snd k)
  | _ => 1
  end.

Definition queue_size (todo : list ast.node) : nat :=
  list_sum (List.map node_size todo).

Lemma queue_size_app a b : queue_size (a ++ b) = queue_size a + queue_size b.
Proof. unfold queue_size. rewrite List.map_app, list_sum_app. reflexivity. Qed.

Lemma queue_size_exprs l :
  queue_size (List.map ast.N_expr l) = list_sum (List.map expr_size l).
Proof. unfold queue_size. induction l; simpl; congruence. Qed.

Lemma queue_size_cmpops l : queue_size (List.map ast.N_cmpop l) = length l.
Proof. unfold queue_size. induction l; simpl; congruence. Qed.

Lemma queue_size_keywords l :
  queue_size (List.map ast.N_keyword l)
  = list_sum (List.map (fun k => 1 + expr_size (snd k)) l).
Proof. unfold queue_size. induction l as [|k l IH]; simpl; [|rewrite IH]; reflexivity. Qed.

Lemma queue_size_cons n l : queue_size (n :: l) = node_size n + queue_size l.
Proof. reflexivity. Qed.

Lemma iter_child_nodes_size n : queue_size (iter_child_nodes n) < node_size n.
Proof.
  destruct n as [[body]|e|c|o|o|o|o|k]; try (cbn; lia).
  destruct e; cbn [iter_child_nodes];
    repeat first [rewrite queue_size_cons | rewrite queue_size_app];
    rewrite ?queue_size_exprs, ?queue_size_cmpops, ?queue_size_keywords;
    change (queue_size []) with 0;
    cbn [node_size expr_size]; lia.
Qed.

(** [ast.walk]: the queue loop [node = todo.popleft();
    todo.extend(iter_child_nodes(node)); yield node], breadth first. *)
Equations? walk (todo : list ast.node) : list ast.node
  by wf (queue_size todo) lt :=
  walk [] := [];
  walk (n :: todo) := n :: walk (todo ++ iter_child_nodes n).
Proof.
  rewrite queue_size_app, queue_size_cons.
  pose proof (iter_child_nodes_size n). lia.
Qed.

Definition ast_walk (tree : ast.mod_) : list ast.node := walk [ast.N_mod tree].

(** ** Values and exceptions *)

(** The four function objects of [ALLOWED_FUNCS]. *)
Inductive builtin := py_abs | py_min | py_max | py_implies.

(** The objects the evaluator handles: [None], booleans, integers, floats
    (binary64, as [spec_float]) and the allowed functions. *)
Inductive value :=
| VNone
| VBool (b : bool)
| VInt (z : Z)
| VFloat (f : spec_float)
| VFunc (f : builtin).

Inductive exn :=
| SyntaxError
| ValueError (msg : ustring)
| NameError (name : ustring)
| TypeError
| ZeroDivisionError
| OverflowError.

(** The result of a computation: a value, an exception, or [Unmodelled]
    where Python leaves the part of the language embedded here. *)
Inductive outcome (A : Type) :=
| Ret (a : A)
| Raise (e : exn)
| Unmodelled.
Arguments Ret {A} a.
Arguments Raise {A} e.
Arguments Unmodelled {A}.

(** A run of the evaluator: its outcome and the expression nodes it
    started to evaluate, in order. *)
Definition run (A : Type) : Type := outcome A * list ast.expr.

Definition raise {A} (e : exn) : run A := (Raise e, []).
Definition unmodelled {A} : run A := (Unmodelled, []).
Definition visit (e : ast.expr) : run unit := (Ret tt, [e]).

(** Sequencing stops at the first exception; the nodes visited add up. *)
#[global] Instance run_ret : MRet run := fun A a => (Ret a, []).
#[global] Instance run_bind : MBind run := fun A B f m =>
  match m with
  | (Ret a, t) => let '(r, t') := f a in (r, t ++ t')
  | (Raise e, t) => (Raise e, t)
  | (Unmodelled, t) => (Unmodelled, t)
  end.

(** ** The allowlists *)

Definition ALLOWED_VARS : list ustring :=
  [str "n"; str "m"; str "is_connected"; str "diameter"; str "num_triangles";
   str "max_degree"; str "avg_degree"; str "density"].

Definition ALLOWED_FUNCS : gmap ustring value :=
  <[str "implies" := VFunc py_implies]>
  (<[str "max" := VFunc py_max]>
  (<[str "min" := VFunc py_min]>
  (<[str "abs" := VFunc py_abs]> ∅))).

Arguments ALLOWED_FUNCS : simpl never.

Definition ALLOWED_NAMES : gset ustring :=
  list_to_set ALLOWED_VARS ∪ dom ALLOWED_FUNCS.

(** [isinstance(node, ALLOWED_NODES)] *)
Definition allowed_node (n : ast.node) : bool :=
  match n with
  | ast.N_mod (ast.Expression _) => true
  | ast.N_expr e =>
      match e with
      | ast.BoolOp _ _ | ast.BinOp _ _ _ | ast.UnaryOp _ _ | ast.Compare _ _ _
      | ast.Name _ _ | ast.Constant _ | ast.Call _ _ _ => true
      | ast.OtherExpr _ _ => false
      end
  | ast.N_ctx c => match c with ast.Load => true | _ => false end
  | ast.N_boolop _ => true
  | ast.N_operator o =>
      match o with
      | ast.Add | ast.Sub | ast.Mult | ast.Div => true
      | _ => false
      end
  | ast.N_unaryop o =>
      match o with ast.Not | ast.USub => true | _ => false end
  | ast.N_cmpop o =>
      match o with
      | ast.Eq | ast.NotEq | ast.Lt | ast.LtE | ast.Gt | ast.GtE
      | ast.Is | ast.IsNot => true
      | _ => false
      end
  | ast.N_keyword _ => false
  end.

(** [isinstance(node.func, ast.Name) and node.func.id in ALLOWED_FUNCS] *)
Definition allowed_call_target (func : ast.expr) : bool :=
  match func with
  | ast.Name id _ => bool_decide (id ∈ dom ALLOWED_FUNCS)
  | _ => false
  end.

(** The body of the validation loop of [safe_eval_expr] on one node: the
    exception it raises, if any. *)
Definition check_node (n : ast.node) : option exn :=
  if negb (allowed_node n) then
    Some (ValueError (str "Disallowed syntax: " ++ class_name n))
  else
    match n with
    | ast.N_expr (ast.Name id _) =>
        if bool_decide (id ∈ ALLOWED_NAMES) then None
        else Some (ValueError (str "Disallowed name: " ++ id))
    | ast.N_expr (ast.Call func _ _) =>
        if allowed_call_target func then None
        else Some (ValueError (str "Only calls to allowed functions are permitted."))
    | _ => None
    end.

(** [for node in nodes: ...]: the first exception raised. *)
Fixpoint check_nodes (nodes : list ast.node) : option exn :=
  match nodes with
  | [] => None
  | n :: rest =>
      match check_node n with
      | Some e => Some e
      | None => check_nodes rest
      end
  end.

(** ** [guard_none_comparisons]

    The argument is a dict in its insertion order, as the list of its
    items; the loop reads it in that order.  The result is only looked up
    by key, so it is a finite map. *)

Definition is_none (v : value) : bool :=
  match v with VNone => true | _ => false end.

(** [float("nan")] *)
Definition nan : value := VFloat S754_nan.

(** [f"{k}_is_none"] *)
Definition flag_key (k : ustring) : ustring := k ++ str "_is_none".

(** One turn of the loop [for k, v in env.items()]. *)
Definition guard_step (out : gmap ustring value) (kv : ustring * value)
  : gmap ustring value :=
  let out := <[flag_key (fst kv) := VBool (is_none (snd kv))]> out in
  if is_none (snd kv) then <[fst kv := nan]> out else out.

Definition guard_none_comparisons (env : list (ustring * value))
  : gmap ustring value :=
  List.fold_left guard_step env (list_to_map env).

(** ** The evaluator

    What [eval] does on a validated tree, over the values above. *)

#[global] Instance outcome_ret : MRet outcome := fun A a => Ret a.
#[global] Instance outcome_bind : MBind outcome := fun A B f m =>
  match m with
  | Ret a => f a
  | Raise e => Raise e
  | Unmodelled => Unmodelled
  end.

Definition lift {A} (o : outcome A) : run A := (o, []).

(** [bool(v)] *)
Definition truthy (v : value) : bool :=
  match v with
  | VNone => false
  | VBool b => b
  | VInt z => negb (z =? 0)%Z
  | VFloat (S754_zero _) => false
  | VFloat _ => true
  | VFunc _ => true
  end.

(** Numbers: [bool] is a subclass of [int]. *)
Inductive number := NInt (z : Z) | NFloat (f : spec_float).

Definition as_number (v : value) : option number :=
  match v with
  | VBool b => Some (NInt (if b then 1 else 0)%Z)
  | VInt z => Some (NInt z)
  | VFloat f => Some (NFloat f)
  | _ => None
  end.

(** The binary64 format of Python floats. *)
Definition prec : Z := 53.
Definition emax : Z := 1024.

(** [float(z)]: rounded to nearest even, [OverflowError] out of range. *)
Definition float_of_int (z : Z) : outcome spec_float :=
  match binary_normalize prec emax z 0 false with
  | S754_infinity _ => Raise OverflowError
  | f => Ret f
  end.

Definition to_float (n : number) : outcome spec_float :=
  match n with
  | NInt z => float_of_int z
  | NFloat f => Ret f
  end.

(** [x / y] on integers: the quotient rounded once. *)
Definition int_true_div (x y : Z) : outcome value :=
  if (y =? 0)%Z then Raise ZeroDivisionError
  else if (x =? 0)%Z then Ret (VFloat (S754_zero (y <? 0)%Z))
  else
    let '(q, e, l) := SFdiv_core_binary prec emax (Z.abs x) 0 (Z.abs y) 0 in
    match binary_round_aux prec emax (xorb (x <? 0)%Z (y <? 0)%Z) q e l with
    | S754_infinity _ => Raise OverflowError
    | f => Ret (VFloat f)
    end.

Definition is_zero (f : spec_float) : bool :=
  match f with S754_zero _ => true | _ => false end.

(** The operators [+ - * /]; the other operators never pass validation. *)
Definition binary_op (op : ast.operator) (a b : value) : outcome value :=
  match op with
  | ast.Add | ast.Sub | ast.Mult | ast.Div =>
      match as_number a, as_number b with
      | Some (NInt x), Some (NInt y) =>
          match op with
          | ast.Add => Ret (VInt (x + y))
          | ast.Sub => Ret (VInt (x - y))
          | ast.Mult => Ret (VInt (x * y))
          | _ => int_true_div x y
          end
      | Some x, Some y =>
          f ← to_float x; g ← to_float y;
          match op with
          | ast.Add => Ret (VFloat (SFadd prec emax f g))
          | ast.Sub => Ret (VFloat (SFsub prec emax f g))
          | ast.Mult => Ret (VFloat (SFmul prec emax f g))
          | _ => if is_zero g then Raise ZeroDivisionError
                 else Ret (VFloat (SFdiv prec emax f g))
          end
      | _, _ => Raise TypeError
      end
  | _ => Unmodelled
  end.

(** [not] and unary [-]. *)
Definition unary_op (op : ast.unaryop) (v : value) : outcome value :=
  match op with
  | ast.Not => Ret (VBool (negb (truthy v)))
  | ast.USub =>
      match as_number v with
      | Some (NInt x) => Ret (VInt (- x))
      | Some (NFloat f) => Ret (VFloat (SFopp f))
      | None => Raise TypeError
      end
  | _ => Unmodelled
  end.

(** A float against an integer, exactly; [None] when the float is NaN. *)
Definition float_cmp_int (f : spec_float) (z : Z) : option comparison :=
  match f with
  | S754_nan => None
  | S754_infinity s => Some (if s then Lt else Gt)
  | S754_zero _ => Some (0 ?= z)%Z
  | S754_finite s m e =>
      let v := if s then Z.neg m else Z.pos m in
      Some (if (0 <=? e)%Z then (v * 2 ^ e ?= z)%Z else (v ?= z * 2 ^ (- e))%Z)
  end.

(** The order of two numbers; [None] when one of them is NaN. *)
Definition num_compare (a b : number) : option comparison :=
  match a, b with
  | NInt x, NInt y => Some (x ?= y)%Z
  | NFloat f, NFloat g => SFcompare f g
  | NFloat f, NInt y => float_cmp_int f y
  | NInt x, NFloat g => option_map CompOpp (float_cmp_int g x)
  end.

Definition builtin_eqb (f g : builtin) : bool :=
  match f, g with
  | py_abs, py_abs | py_min, py_min | py_max, py_max
  | py_implies, py_implies => true
  | _, _ => false
  end.

(** [a == b] *)
Definition py_eq (a b : value) : bool :=
  match as_number a, as_number b with
  | Some x, Some y =>
      match num_compare x y with Some Eq => true | _ => false end
  | None, None =>
      match a, b with
      | VNone, VNone => true
      | VFunc f, VFunc g => builtin_eqb f g
      | _, _ => false
      end
  | _, _ => false
  end.

(** [a is b]; between two integers or two floats the answer depends on
    how the objects were allocated. *)
Definition py_is (a b : value) : option bool :=
  match a, b with
  | VNone, VNone => Some true
  | VBool x, VBool y => Some (eqb x y)
  | VFunc f, VFunc g => Some (builtin_eqb f g)
  | VInt _, VInt _ | VFloat _, VFloat _ => None
  | _, _ => Some false
  end.

(** One comparison [a op b]. *)
Definition compare_op (op : ast.cmpop) (a b : value) : outcome value :=
  let ordered (test : comparison -> bool) : outcome value :=
    match as_number a, as_number b with
    | Some x, Some y =>
        Ret (VBool (match num_compare x y with Some c => test c | None => false end))
    | _, _ => Raise TypeError
    end in
  match op with
  | ast.Eq => Ret (VBool (py_eq a b))
  | ast.NotEq => Ret (VBool (negb (py_eq a b)))
  | ast.Lt => ordered (fun c => match c with Lt => true | _ => false end)
  | ast.LtE => ordered (fun c => match c with Gt => false | _ => true end)
  | ast.Gt => ordered (fun c => match c with Gt => true | _ => false end)
  | ast.GtE => ordered (fun c => match c with Lt => false | _ => true end)
  | ast.Is =>
      match py_is a b with Some r => Ret (VBool r) | None => Unmodelled end
  | ast.IsNot =>
      match py_is a b with Some r => Ret (VBool (negb r)) | None => Unmodelled end
  | _ => Unmodelled
  end.

(** [min] and [max] on two or more arguments: a later argument replaces
    the best one when it compares below (above) it. *)
Fixpoint min_max (op : ast.cmpop) (best : value) (rest : list value)
  : outcome value :=
  match rest with
  | [] => Ret best
  | x :: rest' =>
      r ← compare_op op x best;
      min_max op (if truthy r then x else best) rest'
  end.

(** [implies(a, b)]: [return (not a) or b] *)
Definition implies (a b : value) : value :=
  if negb (truthy a) then VBool true else b.

(** A call of one of the allowed functions on evaluated arguments. *)
Definition call_builtin (f : builtin) (args : list value) : outcome value :=
  match f, args with
  | py_abs, [v] =>
      match as_number v with
      | Some (NInt x) => Ret (VInt (Z.abs x))
      | Some (NFloat g) => Ret (VFloat (SFabs g))
      | None => Raise TypeError
      end
  | py_min, v :: w :: rest => min_max ast.Lt v (w :: rest)
  | py_max, v :: w :: rest => min_max ast.Gt v (w :: rest)
  | py_implies, [a; b] => Ret (implies a b)
  | _, _ => Raise TypeError
  end.

Definition call (f : value) (args : list value) : outcome value :=
  match f with
  | VFunc g => call_builtin g args
  | _ => Raise TypeError
  end.

(** The value of a literal.  String, bytes, complex and [...] literals
    pass validation like any [Constant] and Python evaluates them; their
    values are outside the values embedded here, so an evaluation that
    reaches one is [Unmodelled] from there on. *)
Definition eval_constant (c : ast.constant) : outcome value :=
  match c with
  | ast.CNone => Ret VNone
  | ast.CBool b => Ret (VBool b)
  | ast.CInt z => Ret (VInt z)
  | ast.CFloat f => Ret (VFloat f)
  | _ => Unmodelled
  end.

(** Where [and] and [or] stop. *)
Definition short_circuits (op : ast.boolop) (v : value) : bool :=
  match op with
  | ast.Or => truthy v
  | ast.And => negb (truthy v)
  end.

(** The parts of the evaluator that run through a list of operands, over
    the evaluator [ev] of one operand. *)
Section Operands.

Variable ev : ast.expr -> run value.

(** [x1 or x2 or ...], [x1 and x2 and ...]: the first operand that
    settles the result, else the last one. *)
Fixpoint eval_boolop (op : ast.boolop) (values : list ast.expr) : run value :=
  match values with
  | [] => unmodelled
  | [x] => ev x
  | x :: rest =>
      v ← ev x;
      if short_circuits op v then mret v else eval_boolop op rest
  end.

(** [a op1 c1 op2 c2 ...]: each comparator is evaluated once, and the
    chain stops at the first comparison that is false. *)
Fixpoint eval_chain (a : value) (ops : list ast.cmpop)
  (comparators : list ast.expr) {struct comparators} : run value :=
  match ops, comparators with
  | [op], [c] => b ← ev c; lift (compare_op op a b)
  | op :: ops', c :: cs' =>
      b ← ev c;
      r ← lift (compare_op op a b);
      if truthy r then eval_chain b ops' cs' else mret r
  | _, _ => unmodelled
  end.

(** The arguments of a call, left to right. *)
Fixpoint eval_args (args : list ast.expr) : run (list value) :=
  match args with
  | [] => mret []
  | x :: rest => v ← ev x; vs ← eval_args rest; mret (v :: vs)
  end.

End Operands.

(** [eval(compiled, {"__builtins__": {}}, env)]: names are looked up in
    [env] alone. *)
Fixpoint eval (env : gmap ustring value) (e : ast.expr) {struct e} : run value :=
  visit e;;
  match e with
  | ast.Constant c => lift (eval_constant c)
  | ast.Name id ast.Load =>
      match env !! id with
      | Some v => mret v
      | None => raise (NameError id)
      end
  | ast.Name _ _ => unmodelled
  | ast.UnaryOp op operand =>
      v ← eval env operand; lift (unary_op op v)
  | ast.BinOp l op r =>
      a ← eval env l; b ← eval env r; lift (binary_op op a b)
  | ast.BoolOp op values =>
      match values with
      | [] | [_] => unmodelled
      | _ => eval_boolop (eval env) op values
      end
  | ast.Compare l ops comparators =>
      a ← eval env l; eval_chain (eval env) a ops comparators
  | ast.Call func args keywords =>
      f ← eval env func;
      vs ← eval_args (eval env) args;
      match keywords with
      | [] => lift (call f vs)
      | _ => unmodelled
      end
  | ast.OtherExpr _ _ => unmodelled
  end.

(** ** [safe_eval_expr] *)

Section Evaluator.

(** [ast.parse(expr, mode="eval")]: the tree, or [Raise SyntaxError]. *)
Variable ast_parse : ustring -> outcome ast.mod_.

Definition safe_eval_expr (expr : ustring) (env : list (ustring * value))
  : run bool :=
  let expr := rewrite_implies expr in
  tree ← lift (ast_parse expr);
  let env := guard_none_comparisons env in
  match check_nodes (ast_walk tree) with
  | Some e => raise e
  | None =>
      let 'ast.Expression body := tree in
      let full_env := env ∪ ALLOWED_FUNCS in
      v ← eval full_env body;
      mret (truthy v)
  end.

End Evaluator.

(** ** A parser for the part of the expression grammar used below

    [ast.parse] is the parser of the Python runtime.  [parse_expression]
    reads the expressions made of names, decimal integers, [True], [False],
    [None], parentheses, calls with positional arguments, unary [+] and
    [-], the binary operators [* / // % + -], comparison chains, [not],
    [and] and [or], with spaces between the tokens, and builds the tree
    [ast.parse] builds for them; every other text is [Unmodelled]. *)
Module parser.

Inductive token :=
| T_name (s : ustring)
| T_int (z : Z)
| T_kw (s : ustring)
| T_op (s : ustring).

Definition is_digit (c : N) : bool := ((48 <=? c) && (c <=? 57))%N.
Definition is_alpha (c : N) : bool :=
  ((65 <=? c) && (c <=? 90) || (97 <=? c) && (c <=? 122) || (c =? 95))%N.

Fixpoint ustring_eqb (a b : ustring) : bool :=
  match a, b with
  | [], [] => true
  | x :: a', y :: b' => (x =? y)%N && ustring_eqb a' b'
  | _, _ => false
  end.

Definition mem (s : ustring) (l : list ustring) : bool :=
  List.existsb (ustring_eqb s) l.

(** The keywords read here, and the reserved words that are not. *)
Definition keywords : list ustring :=
  [str "and"; str "or"; str "not"; str "is"; str "in";
   str "True"; str "False"; str "None"].

Definition reserved : list ustring :=
  [str "as"; str "assert"; str "async"; str "await"; str "break"; str "class";
   str "continue"; str "def"; str "del"; str "elif"; str "else"; str "except";
   str "finally"; str "for"; str "from"; str "global"; str "if"; str "import";
   str "lambda"; str "nonlocal"; str "pass"; str "raise"; str "return";
   str "try"; str "while"; str "with"; str "yield"].

Fixpoint take_while (f : N -> bool) (s : ustring) : ustring * ustring :=
  match s with
  | c :: t => if f c then let '(a, b) := take_while f t in (c :: a, b) else ([], s)
  | [] => ([], [])
  end.

Definition digits_value (ds : ustring) : Z :=
  List.fold_left (fun acc d => (10 * acc + Z.of_N (d - 48))%Z) ds 0%Z.

Definition two_char_ops : list ustring :=
  [str "<="; str ">="; str "=="; str "!="; str "//"].
Definition one_char_ops : list ustring :=
  [str "("; str ")"; str ","; str "+"; str "-"; str "*"; str "/"; str "%";
   str "<"; str ">"].

Fixpoint tokenize (fuel : nat) (s : ustring) : option (list token) :=
  match fuel with
  | O => None
  | S fuel =>
      match s with
      | [] => Some []
      | c :: t =>
          if (c =? 32)%N then tokenize fuel t
          else if is_alpha c then
            let '(w, rest) := take_while (fun x => is_alpha x || is_digit x) s in
            if mem w reserved then None
            else
              ts ← tokenize fuel rest;
              Some ((if mem w keywords then T_kw w else T_name w) :: ts)
          else if is_digit c then
            let '(w, rest) := take_while is_digit s in
            match rest with
            | d :: _ => if is_alpha d || (d =? 46)%N then None
                        else match w with
                             | 48%N :: _ :: _ => None
                             | _ => ts ← tokenize fuel rest; Some (T_int (digits_value w) :: ts)
                             end
            | [] => match w with
                    | 48%N :: _ :: _ => None
                    | _ => Some [T_int (digits_value w)]
                    end
            end
          else
            match t with
            | d :: t' =>
                if mem [c; d] two_char_ops then
                  ts ← tokenize fuel t'; Some (T_op [c; d] :: ts)
                else if mem [c; d] [str "**"] then None
                else if mem [c] one_char_ops then
                  ts ← tokenize fuel t; Some (T_op [c] :: ts)
                else None
            | [] => if mem [c] one_char_ops then Some [T_op [c]] else None
            end
      end
  end.

Definition is_op (s : string) (t : token) : bool :=
  match t with T_op o => ustring_eqb o (str s) | _ => false end.
Definition is_kw (s : string) (t : token) : bool :=
  match t with T_kw o => ustring_eqb o (str s) | _ => false end.

(** A comparison operator at the head of the tokens. *)
Definition read_cmpop (ts : list token) : option (ast.cmpop * list token) :=
  match ts with
  | t :: rest =>
      if is_op "==" t then Some (ast.Eq, rest)
      else if is_op "!=" t then Some (ast.NotEq, rest)
      else if is_op "<=" t then Some (ast.LtE, rest)
      else if is_op ">=" t then Some (ast.GtE, rest)
      else if is_op "<" t then Some (ast.Lt, rest)
      else if is_op ">" t then Some (ast.Gt, rest)
      else if is_kw "in" t then Some (ast.In, rest)
      else if is_kw "is" t then
        match rest with
        | t' :: rest' => if is_kw "not" t' then Some (ast.IsNot, rest')
                         else Some (ast.Is, rest)
        | [] => Some (ast.Is, rest)
        end
      else if is_kw "not" t then
        match rest with
        | t' :: rest' => if is_kw "in" t' then Some (ast.NotIn, rest') else None
        | [] => None
        end
      else None
  | [] => None
  end.

Definition read_term_op (ts : list token) : option (ast.operator * list token) :=
  match ts with
  | t :: rest =>
      if is_op "*" t then Some (ast.Mult, rest)
      else if is_op "/" t then Some (ast.Div, rest)
      else if is_op "//" t then Some (ast.FloorDiv, rest)
      else if is_op "%" t then Some (ast.Mod, rest)
      else None
  | [] => None
  end.

Definition read_sum_op (ts : list token) : option (ast.operator * list token) :=
  match ts with
  | t :: rest =>
      if is_op "+" t then Some (ast.Add, rest)
      else if is_op "-" t then Some (ast.Sub, rest)
      else None
  | [] => None
  end.

(** The grammar levels, from [or] down to atoms. *)
Inductive level := L_or | L_and | L_not | L_cmp | L_sum | L_term | L_factor | L_primary.

Definition boolop_tree (op : ast.boolop) (vs : list ast.expr) : ast.expr :=
  match vs with
  | [x] => x
  | _ => ast.BoolOp op vs
  end.

Fixpoint parse (fuel : nat) (lv : level) (ts : list token) {struct fuel}
  : option (ast.expr * list token) :=
  match fuel with
  | O => None
  | S fuel =>
      match lv with
      | L_or =>
          '(x, ts) ← parse fuel L_and ts;
          '(xs, ts) ← (fix more (n : nat) (ts : list token) : option (list ast.expr * list token) :=
             match n with
             | O => None
             | S n =>
                 match ts with
                 | t :: rest =>
                     if is_kw "or" t then
                       '(y, ts') ← parse fuel L_and rest;
                       '(ys, ts'') ← more n ts';
                       Some (y :: ys, ts'')
                     else Some ([], ts)
                 | [] => Some ([], ts)
                 end
             end) fuel ts;
          Some (boolop_tree ast.Or (x :: xs), ts)
      | L_and =>
          '(x, ts) ← parse fuel L_not ts;
          '(xs, ts) ← (fix more (n : nat) (ts : list token) : option (list ast.expr * list token) :=
             match n with
             | O => None
             | S n =>
                 match ts with
                 | t :: rest =>
                     if is_kw "and" t then
                       '(y, ts') ← parse fuel L_not rest;
                       '(ys, ts'') ← more n ts';
                       Some (y :: ys, ts'')
                     else Some ([], ts)
                 | [] => Some ([], ts)
                 end
             end) fuel ts;
          Some (boolop_tree ast.And (x :: xs), ts)
      | L_not =>
          match ts with
          | t :: rest =>
              if is_kw "not" t then
                '(x, ts') ← parse fuel L_not rest;
                Some (ast.UnaryOp ast.Not x, ts')
              else parse fuel L_cmp ts
          | [] => None
          end
      | L_cmp =>
          '(x, ts) ← parse fuel L_sum ts;
          '(ocs, ts) ← (fix more (n : nat) (ts : list token)
               : option (list (ast.cmpop * ast.expr) * list token) :=
             match n with
             | O => None
             | S n =>
                 match read_cmpop ts with
                 | Some (op, rest) =>
                     '(y, ts') ← parse fuel L_sum rest;
                     '(ys, ts'') ← more n ts';
                     Some ((op, y) :: ys, ts'')
                 | None => Some ([], ts)
                 end
             end) fuel ts;
          match ocs with
          | [] => Some (x, ts)
          | _ => Some (ast.Compare x (List.map fst ocs) (List.map snd ocs), ts)
          end
      | L_sum =>
          '(x, ts) ← parse fuel L_term ts;
          (fix more (n : nat) (acc : ast.expr) (ts : list token)
               : option (ast.expr * list token) :=
             match n with
             | O => None
             | S n =>
                 match read_sum_op ts with
                 | Some (op, rest) =>
                     '(y, ts') ← parse fuel L_term rest;
                     more n (ast.BinOp acc op y) ts'
                 | None => Some (acc, ts)
                 end
             end) fuel x ts
      | L_term =>
          '(x, ts) ← parse fuel L_factor ts;
          (fix more (n : nat) (acc : ast.expr) (ts : list token)
               : option (ast.expr * list token) :=
             match n with
             | O => None
             | S n =>
                 match read_term_op ts with
                 | Some (op, rest) =>
                     '(y, ts') ← parse fuel L_factor rest;
                     more n (ast.BinOp acc op y) ts'
                 | None => Some (acc, ts)
                 end
             end) fuel x ts
      | L_factor =>
          match ts with
          | t :: rest =>
              if is_op "-" t then
                '(x, ts') ← parse fuel L_factor rest;
                Some (ast.UnaryOp ast.USub x, ts')
              else if is_op "+" t then
                '(x, ts') ← parse fuel L_factor rest;
                Some (ast.UnaryOp ast.UAdd x, ts')
              else parse fuel L_primary ts
          | [] => None
          end
      | L_primary =>
          '(atom, ts) ←
            match ts with
            | T_name s :: rest => Some (ast.Name s ast.Load, rest)
            | T_int z :: rest => Some (ast.Constant (ast.CInt z), rest)
            | T_kw k :: rest =>
                if ustring_eqb k (str "True") then Some (ast.Constant (ast.CBool true), rest)
                else if ustring_eqb k (str "False") then Some (ast.Constant (ast.CBool false), rest)
                else if ustring_eqb k (str "None") then Some (ast.Constant ast.CNone, rest)
                else None
            | T_op o :: rest =>
                if ustring_eqb o (str "(") then
                  '(x, ts') ← parse fuel L_or rest;
                  match ts' with
                  | t :: rest' => if is_op ")" t then Some (x, rest') else None
                  | [] => None
                  end
                else None
            | [] => None
            end;
          (fix calls (n : nat) (f : ast.expr) (ts : list token)
               : option (ast.expr * list token) :=
             match n with
             | O => None
             | S n =>
                 match ts with
                 | t :: rest =>
                     if is_op "(" t then
                       '(args, ts') ← (fix arguments (k : nat) (ts : list token)
                            : option (list ast.expr * list token) :=
                          match k with
                          | O => None
                          | S k =>
                              match ts with
                              | t :: rest =>
                                  if is_op ")" t then Some ([], rest)
                                  else
                                    '(x, ts') ← parse fuel L_or ts;
                                    match ts' with
                                    | t' :: rest' =>
                                        if is_op ")" t' then Some ([x], rest')
                                        else if is_op "," t' then
                                          '(xs, ts'') ← arguments k rest';
                                          Some (x :: xs, ts'')
                                        else None
                                    | [] => None
                                    end
                              | [] => None
                              end
                          end) fuel rest;
                       calls n (ast.Call f args []) ts'
                     else Some (f, ts)
                 | [] => Some (f, ts)
                 end
             end) fuel atom ts
      end
  end.

Definition parse_expression (s : ustring) : outcome ast.mod_ :=
  match s with
  | 32%N :: _ => Unmodelled
  | _ =>
      match tokenize (S (length s)) s with
      | Some ts =>
          match parse (8 * S (length ts)) L_or ts with
          | Some (e, []) => Ret (ast.Expression e)
          | _ => Unmodelled
          end
      | None => Unmodelled
      end
  end.

End parser.

(** ** The vocabulary of the properties *)

(** [infix_implies s]: the text [s] holds [implies] as an infix keyword,
    that is a left operand, white space, the keyword, white space and a
    right operand, the operands being non-empty and free of line feeds. *)
Definition infix_implies (s : ustring) : Prop :=
  exists pre l ws1 ws2 r post,
    s = pre ++ l ++ ws1 ++ kw_implies ++ ws2 ++ r ++ post /\
    l <> [] /\ forallb is_dot l = true /\
    ws1 <> [] /\ forallb is_space ws1 = true /\
    ws2 <> [] /\ forallb is_space ws2 = true /\
    r <> [] /\ forallb is_dot r = true.

(** The nodes of a tree: its root and, with a node, the nodes held in its
    fields. *)
Inductive in_tree (root : ast.node) : ast.node -> Prop :=
| in_tree_root : in_tree root root
| in_tree_child n c :
    in_tree root n -> In c (iter_child_nodes n) -> in_tree root c.

(** What validation refuses: a node of a class outside [ALLOWED_NODES], a
    name outside [ALLOWED_NAMES], a call whose target is not the plain name
    of an allowed function. *)
Definition violation (n : ast.node) : Prop :=
  allowed_node n = false \/
  (exists id ctx, n = ast.N_expr (ast.Name id ctx) /\ id ∉ ALLOWED_NAMES) \/
  (exists func args keywords,
      n = ast.N_expr (ast.Call func args keywords) /\
      ~ exists id ctx, func = ast.Name id ctx /\ id ∈ dom ALLOWED_FUNCS).

(** No key of the bindings is the flag key of a key of the bindings. *)
Definition collision_free (env : list (ustring * value)) : Prop :=
  Forall (fun k => flag_key k ∉ env.*1) env.*1.

(** The comparisons that a NaN operand makes false. *)
Definition nan_false (op : ast.cmpop) : bool :=
  match op with
  | ast.Eq | ast.Lt | ast.LtE | ast.Gt | ast.GtE => true
  | _ => false
  end.

Definition numeric_constant (c : ast.constant) : bool :=
  match c with
  | ast.CBool _ | ast.CInt _ | ast.CFloat _ => true
  | _ => false
  end.

(** [occurs p s]: the text [p] is found somewhere in [s]; [contains]
    decides it. *)
Definition occurs (p s : ustring) : Prop := exists a b, s = a ++ p ++ b.

Fixpoint contains (p s : ustring) : bool :=
  match strip_prefix p s with
  | Some _ => true
  | None =>
      match s with
      | [] => false
      | _ :: t => contains p t
      end
  end.

(** What guarding makes of a value: NaN for [None], the value otherwise. *)
Definition guarded (v : value) : value := if is_none v then nan else v.

(** The comparisons that raise on [None]. *)
Definition ordering (op : ast.cmpop) : bool :=
  match op with
  | ast.Lt | ast.LtE | ast.Gt | ast.GtE => true
  | _ => false
  end.

(** The text begins with a character that is no white space. *)
Definition starts_plain (s : ustring) : bool :=
  match s with
  | c :: _ => negb (is_space c)
  | [] => false
  end.

(** The outcomes of the operators and functions: a value, or one of the
    exceptions of arithmetic and typing. *)
Definition plain_outcome {A} (o : outcome A) : Prop :=
  match o with
  | Raise (NameError _) | Raise (ValueError _) | Raise SyntaxError => False
  | _ => True
  end.



(** * Properties *)

(** ** The rewriter *)

Lemma rewrite_implies_step expr :
  rewrite_implies expr =
  match re_search pattern expr with
  | Some _ => rewrite_implies (re_sub1 pattern replacement expr)
  | None => expr
  end.
Proof.
  funelim (rewrite_implies expr); rewrite e; reflexivity.
Qed.

(** [re.search(pattern, s)] finds a match exactly when [s] holds an infix
    [implies]. *)
Lemma re_search_infix s : re_search pattern s = None <-> ~ infix_implies s.
Proof.
  split.
  - intros H (pre & l & ws1 & ws2 & r & post & Hs & Hl & Hl' & H1 & H1' & H2 & H2' & Hr & Hr').
    refine (re_search_complete _ _ H pre (l ++ ws1 ++ kw_implies ++ ws2 ++ r)
              [l; r] post _ _).
    + rewrite Hs. repeat rewrite <- app_assoc. reflexivity.
    + apply matches_pattern_intro; assumption.
  - intros H. destruct (re_search pattern s) as [m|] eqn:E; [|reflexivity].
    exfalso. apply H. apply re_search_sound in E as [Hs Hm].
    apply matches_pattern_inv in Hm
      as (g1 & ws1 & ws2 & g2 & Hw & _ & ? & ? & ? & ? & ? & ? & ? & ?).
    exists (m_before m), g1, ws1, ws2, g2, (m_after m).
    rewrite Hs, Hw. repeat rewrite <- app_assoc. repeat split; assumption.
Qed.

(** The loop of [rewrite_implies] as a count of turns: it makes [n]
    substitutions, [n] at most the number of white-space characters, and
    leaves when the pattern matches no more. *)
Lemma rewrite_implies_turns expr :
  exists n, n <= spaces expr /\
    rewrite_implies expr = Nat.iter n (re_sub1 pattern replacement) expr /\
    re_search pattern (Nat.iter n (re_sub1 pattern replacement) expr) = None /\
    forall k, k < n ->
      re_search pattern (Nat.iter k (re_sub1 pattern replacement) expr) <> None.
Proof.
  assert (exists fuel, spaces expr <= fuel) as [fuel Hle] by (eexists; reflexivity).
  revert expr Hle. induction fuel as [|fuel IH]; intros expr Hle.
  - exists 0. rewrite rewrite_implies_step.
    destruct (re_search pattern expr) as [m|] eqn:E.
    + apply replace_match_spaces in E. lia.
    + cbn [Nat.iter nat_rect]. repeat split; [lia | exact E | intros k Hk; lia].
  - rewrite rewrite_implies_step.
    destruct (re_search pattern expr) as [m|] eqn:E.
    + pose proof (replace_match_spaces _ _ E) as Hlt.
      assert (re_sub1 pattern replacement expr = replace_match replacement m) as Hsub
        by (unfold re_sub1; rewrite E; reflexivity).
      destruct (IH (re_sub1 pattern replacement expr)) as (n & Hn & Hr & Hnone & Hsome);
        [rewrite Hsub; lia|].
      exists (S n). rewrite Nat.iter_succ_r. repeat split; try assumption.
      * rewrite Hsub in Hn. lia.
      * intros [|k] Hk; [simpl; congruence|].
        rewrite Nat.iter_succ_r. apply Hsome. lia.
    + exists 0. cbn [Nat.iter nat_rect].
      repeat split; [lia | exact E | intros k Hk; lia].
Qed.

Lemma rewrite_implies_fixed expr : re_search pattern (rewrite_implies expr) = None.
Proof.
  destruct (rewrite_implies_turns expr) as (n & _ & -> & H & _). exact H.
Qed.



(** C8.  Rewriting is idempotent: [rewrite_implies] leaves its own output
    unchanged. *)
Theorem rewrite_implies_idempotent expr :
  rewrite_implies (rewrite_implies expr) = rewrite_implies expr.
Proof.
  rewrite (rewrite_implies_step (rewrite_implies expr)).
  rewrite rewrite_implies_fixed. reflexivity.
Qed.

(** C9.  [rewrite_implies] is total: on every input its loop leaves after
    finitely many substitutions (at most one per white-space character of
    the input) and returns the text reached, no step of it can fail, and
    an input in which the pattern never matches is returned unchanged. *)
Theorem rewrite_implies_total expr :
  (exists n, n <= spaces expr /\
     rewrite_implies expr = Nat.iter n (re_sub1 pattern replacement) expr /\
     re_search pattern (Nat.iter n (re_sub1 pattern replacement) expr) = None /\
     forall k, k < n ->
       re_search pattern (Nat.iter k (re_sub1 pattern replacement) expr) <> None) /\
  (re_search pattern expr = None -> rewrite_implies expr = expr).
Proof.
  split; [apply rewrite_implies_turns|].
  intros H. rewrite rewrite_implies_step, H. reflexivity.
Qed.

Lemma rewrite_implies_total_witness :
  re_search pattern (str "max(n, m) > 10") = None /\
  rewrite_implies (str "max(n, m) > 10") = str "max(n, m) > 10".
Proof.
  split; [reflexivity|].
  apply (proj2 (rewrite_implies_total (str "max(n, m) > 10"))). reflexivity.
Defined.

(** C2, as the code behaves.  On the chained input the second
    turn of the loop matches from the start of the text again, so its left
    operand is ["implies(A, B"]: the result is the call
    [implies(implies(A, B, C))], not [implies(A, implies(B, C))], and the
    evaluation of the chained expression ends in the [TypeError] of a call
    of [implies] on three arguments, where the right-nested call evaluates
    to [True]. *)
Theorem rewrite_implies_chain :
  let env := [(str "n", VInt 1); (str "m", VInt 0); (str "is_connected", VBool true)] in
  re_sub1 pattern replacement (str "A implies B implies C")
    = str "implies(A, B implies C)" /\
  re_sub1 pattern replacement (str "implies(A, B implies C)")
    = str "implies(implies(A, B, C))" /\
  rewrite_implies (str "A implies B implies C")
    = str "implies(implies(A, B, C))" /\
  rewrite_implies (str "A implies B implies C")
    <> str "implies(A, implies(B, C))" /\
  rewrite_implies (str "n implies m implies is_connected")
    = str "implies(implies(n, m, is_connected))" /\
  fst (safe_eval_expr parser.parse_expression
         (str "n implies m implies is_connected") env) = Raise TypeError /\
  fst (safe_eval_expr parser.parse_expression
         (str "implies(n, implies(m, is_connected))") env) = Ret true.
Proof.
  intros env.
  assert (rewrite_implies (str "A implies B implies C")
          = str "implies(implies(A, B, C))") as H by (vm_compute; reflexivity).
  repeat split; try (vm_compute; reflexivity).
  rewrite H. discriminate.
Qed.

(** ** Validation *)

Lemma in_tree_trans root n c : in_tree root n -> in_tree n c -> in_tree root c.
Proof.
  intros Hn Hc. induction Hc as [|m c Hm IH Hin]; [exact Hn|].
  exact (in_tree_child root m c IH Hin).
Qed.

(** [walk] yields the queue and is closed under [iter_child_nodes]. *)
Lemma walk_closed todo :
  (forall n, In n todo -> In n (walk todo)) /\
  (forall n c, In n (walk todo) -> In c (iter_child_nodes n) -> In c (walk todo)).
Proof.
  funelim (walk todo).
  - split; intros ? ?; contradiction.
  - destruct H as [Hq Hc]. split.
    + intros x [<-|Hx]; [left; reflexivity | right].
      apply Hq, in_or_app. left. exact Hx.
    + intros x c [<-|Hx] Hin; right.
      * apply Hq, in_or_app. right. exact Hin.
      * exact (Hc x c Hx Hin).
Qed.

(** [ast.walk] reaches every node of the tree. *)
Lemma ast_walk_complete tree n :
  in_tree (ast.N_mod tree) n -> In n (ast_walk tree).
Proof.
  unfold ast_walk. induction 1 as [|n c _ IH Hin].
  - apply (proj1 (walk_closed _)). left. reflexivity.
  - exact (proj2 (walk_closed _) n c IH Hin).
Qed.

Lemma check_node_ValueError n e :
  check_node n = Some e -> exists msg, e = ValueError msg.
Proof.
  unfold check_node. destruct (negb (allowed_node n)); [intros [= <-]; eauto|].
  destruct n as [m|x|c|o|o|o|o|k]; try discriminate.
  destruct x; try discriminate.
  - destruct (allowed_call_target _); [discriminate | intros [= <-]; eauto].
  - destruct (bool_decide _); [discriminate | intros [= <-]; eauto].
Qed.

Lemma allowed_call_target_spec func :
  allowed_call_target func = true <->
  exists id ctx, func = ast.Name id ctx /\ id ∈ dom ALLOWED_FUNCS.
Proof.
  destruct func; simpl; try (split; [discriminate | intros (? & ? & [=] & _)]).
  rewrite bool_decide_eq_true. split.
  - intros H. eauto.
  - intros (? & ? & [= -> ->] & H). exact H.
Qed.

(** A violation makes the loop body raise. *)
Lemma violation_check_node n : violation n -> check_node n <> None.
Proof.
  unfold check_node.
  intros [H | [(id & ctx & -> & H) | (func & args & kws & -> & H)]].
  - rewrite H. discriminate.
  - simpl. rewrite bool_decide_eq_false_2 by exact H. discriminate.
  - simpl. destruct (allowed_call_target func) eqn:E; [|discriminate].
    apply allowed_call_target_spec in E. contradiction.
Qed.

Lemma check_nodes_None nodes :
  check_nodes nodes = None <-> forall n, In n nodes -> check_node n = None.
Proof.
  induction nodes as [|n nodes IH]; simpl.
  - split; [intros _ ? [] | reflexivity].
  - destruct (check_node n) eqn:E.
    + split; [discriminate | intros H]. rewrite <- E. apply H. left. reflexivity.
    + rewrite IH. split.
      * intros H x [<-|Hx]; [exact E | exact (H x Hx)].
      * intros H x Hx. apply H. right. exact Hx.
Qed.

Lemma check_nodes_ValueError nodes e :
  check_nodes nodes = Some e -> exists msg, e = ValueError msg.
Proof.
  induction nodes as [|n nodes IH]; simpl; [discriminate|].
  destruct (check_node n) eqn:E; [|exact IH].
  intros [= <-]. exact (check_node_ValueError _ _ E).
Qed.

(** The checks up to the first node that fails one. *)
Lemma check_nodes_first before n after e :
  check_nodes before = None -> check_node n = Some e ->
  check_nodes (before ++ n :: after) = Some e.
Proof.
  intros Hb Hn. induction before as [|b before IH]; simpl in *.
  - rewrite Hn. reflexivity.
  - destruct (check_node b); [discriminate | exact (IH Hb)].
Qed.

Section Validation.

Variable ast_parse : ustring -> outcome ast.mod_.

(** [safe_eval_expr] after a successful parse. *)
Lemma safe_eval_expr_parsed expr env tree :
  ast_parse (rewrite_implies expr) = Ret tree ->
  safe_eval_expr ast_parse expr env =
  match check_nodes (ast_walk tree) with
  | Some e => (Raise e, [])
  | None =>
      let 'ast.Expression body := tree in
      v ← eval (guard_none_comparisons env ∪ ALLOWED_FUNCS) body;
      mret (truthy v)
  end.
Proof.
  intros H. unfold safe_eval_expr. rewrite H. unfold lift.
  cbn [mbind run_bind]. destruct (check_nodes (ast_walk tree)); [reflexivity|].
  destruct tree as [body].
  destruct (eval _ body ≫= _) as [r t]. reflexivity.
Qed.

(** A tree with a violation is refused without any evaluation. *)
Lemma violation_refused expr env tree n :
  ast_parse (rewrite_implies expr) = Ret tree ->
  in_tree (ast.N_mod tree) n -> violation n ->
  exists msg, safe_eval_expr ast_parse expr env = (Raise (ValueError msg), []).
Proof.
  intros Hp Hn Hv. rewrite (safe_eval_expr_parsed _ _ _ Hp).
  destruct (check_nodes (ast_walk tree)) as [e|] eqn:E.
  - destruct (check_nodes_ValueError _ _ E) as [msg ->]. eauto.
  - exfalso. apply (violation_check_node n Hv).
    exact (proj1 (check_nodes_None _) E n (ast_walk_complete _ _ Hn)).
Qed.

(** C3.  Validation is all-or-nothing and precedes execution: the loop
    of [safe_eval_expr] reaches every node of the parsed tree, and when
    any node of the tree is of a class outside [ALLOWED_NODES], is a
    name outside [ALLOWED_NAMES] or is a call whose target is not the
    plain name of an allowed function, [safe_eval_expr] raises a
    [ValueError] and has evaluated no part of the expression. *)
Theorem validation_precedes_evaluation expr env tree n :
  ast_parse (rewrite_implies expr) = Ret tree ->
  in_tree (ast.N_mod tree) n ->
  In n (ast_walk tree) /\
  (violation n ->
   exists msg, safe_eval_expr ast_parse expr env = (Raise (ValueError msg), [])).
Proof.
  intros Hp Hn. split; [exact (ast_walk_complete _ _ Hn)|].
  exact (violation_refused expr env tree n Hp Hn).
Qed.

End Validation.

(** ** Evaluation *)

(** Induction on expressions, through the lists of operands. *)
Section ExprInd.

Variable P : ast.expr -> Prop.
Hypothesis P_BoolOp : forall op values, Forall P values -> P (ast.BoolOp op values).
Hypothesis P_BinOp : forall l op r, P l -> P r -> P (ast.BinOp l op r).
Hypothesis P_UnaryOp : forall op operand, P operand -> P (ast.UnaryOp op operand).
Hypothesis P_Compare : forall l ops comparators,
  P l -> Forall P comparators -> P (ast.Compare l ops comparators).
Hypothesis P_Call : forall func args keywords,
  P func -> Forall P args -> P (ast.Call func args keywords).
Hypothesis P_Constant : forall c, P (ast.Constant c).
Hypothesis P_Name : forall id ctx, P (ast.Name id ctx).
Hypothesis P_OtherExpr : forall kind fields, P (ast.OtherExpr kind fields).

Fixpoint expr_operands_ind (e : ast.expr) : P e :=
  let all := fix all (l : list ast.expr) : Forall P l :=
    match l with
    | [] => @List.Forall_nil _ P
    | x :: l' => @List.Forall_cons _ P x l' (expr_operands_ind x) (all l')
    end in
  match e with
  | ast.BoolOp op values => P_BoolOp op values (all values)
  | ast.BinOp l op r => P_BinOp l op r (expr_operands_ind l) (expr_operands_ind r)
  | ast.UnaryOp op operand => P_UnaryOp op operand (expr_operands_ind operand)
  | ast.Compare l ops comparators =>
      P_Compare l ops comparators (expr_operands_ind l) (all comparators)
  | ast.Call func args keywords =>
      P_Call func args keywords (expr_operands_ind func) (all args)
  | ast.Constant c => P_Constant c
  | ast.Name id ctx => P_Name id ctx
  | ast.OtherExpr kind fields => P_OtherExpr kind fields
  end.

End ExprInd.

(** A property [Q] of runs that holds of the runs that visit nothing and
    goes through sequencing holds of every evaluation, given that it holds
    of the visits and of the name lookups; [W] is what is known of the
    expression evaluated and of its operands. *)
Section EvalInvariant.

Variable env : gmap ustring value.
Variable Q : forall A, run A -> Prop.
Variable W : ast.expr -> Prop.

Hypothesis Q_pure : forall A (o : outcome A), Q A (o, []).
Hypothesis Q_bind : forall A B (m : run A) (f : A -> run B),
  Q A m -> (forall a, Q B (f a)) -> Q B (m ≫= f).
Hypothesis W_operand : forall e x,
  W e -> In (ast.N_expr x) (iter_child_nodes (ast.N_expr e)) -> W x.
Hypothesis Q_visit : forall e,
  W e -> (forall id ctx, e <> ast.Name id ctx) -> Q unit (visit e).
Hypothesis Q_name : forall id ctx,
  W (ast.Name id ctx) -> Q value (eval env (ast.Name id ctx)).

Lemma eval_boolop_invariant ev op values :
  Forall (fun x => Q value (ev x)) values -> Q value (eval_boolop ev op values).
Proof.
  induction 1 as [|x l Hx Hl IH]; [apply Q_pure|].
  cbn [eval_boolop]. destruct l as [|y l]; [exact Hx|].
  apply Q_bind; [exact Hx|]. intros v.
  destruct (short_circuits op v); [apply Q_pure | exact IH].
Qed.

Lemma eval_chain_invariant ev a ops comparators :
  Forall (fun x => Q value (ev x)) comparators ->
  Q value (eval_chain ev a ops comparators).
Proof.
  intros H. revert a ops. induction H as [|c l Hc Hl IH]; intros a ops.
  - destruct ops as [|op [|op' ops]]; apply Q_pure.
  - destruct ops as [|op ops]; [apply Q_pure|].
    assert (Q value (b ← ev c; r ← lift (compare_op op a b);
                     if truthy r then eval_chain ev b ops l else mret r)) as Hgen.
    { apply Q_bind; [exact Hc|]. intros b.
      apply Q_bind; [apply Q_pure|]. intros r.
      destruct (truthy r); [apply IH | apply Q_pure]. }
    cbn [eval_chain]. destruct ops as [|op' ops]; [|exact Hgen].
    destruct l as [|c' l]; [|exact Hgen].
    apply Q_bind; [exact Hc|]. intros b. apply Q_pure.
Qed.

Lemma eval_args_invariant ev args :
  Forall (fun x => Q value (ev x)) args -> Q (list value) (eval_args ev args).
Proof.
  induction 1 as [|x l Hx Hl IH]; [apply Q_pure|].
  cbn [eval_args]. apply Q_bind; [exact Hx|]. intros v.
  apply Q_bind; [exact IH|]. intros vs. apply Q_pure.
Qed.

Lemma operands_invariant e (l : list ast.expr) :
  W e -> (forall x, In x l -> In (ast.N_expr x) (iter_child_nodes (ast.N_expr e))) ->
  Forall (fun x => W x -> Q value (eval env x)) l ->
  Forall (fun x => Q value (eval env x)) l.
Proof.
  intros Hw Hin Hall. apply List.Forall_forall. intros x Hx.
  apply (proj1 (List.Forall_forall _ _) Hall x Hx).
  exact (W_operand e x Hw (Hin x Hx)).
Qed.

Lemma eval_invariant e : W e -> Q value (eval env e).
Proof.
  induction e as [op values IH|l op r IHl IHr|op operand IH
                  |l ops comparators IHl IH|func args keywords IHf IH
                  |c|id ctx|kind fields] using expr_operands_ind; intros Hw;
    try (apply Q_name; exact Hw);
    cbn [eval]; (apply Q_bind; [apply Q_visit; [exact Hw | discriminate]|]);
    intros _.
  - assert (Forall (fun x => Q value (eval env x)) values) as Hall.
    { apply (operands_invariant (ast.BoolOp op values)); [exact Hw| |exact IH].
      intros x Hx. cbn. right. apply in_map. exact Hx. }
    destruct values as [|x [|y l]]; try apply Q_pure.
    apply eval_boolop_invariant. exact Hall.
  - apply Q_bind; [apply IHl, (W_operand _ _ Hw); cbn; auto|]. intros a.
    apply Q_bind; [apply IHr, (W_operand _ _ Hw); cbn; auto|]. intros b.
    apply Q_pure.
  - apply Q_bind; [apply IH, (W_operand _ _ Hw); cbn; auto|]. intros v.
    apply Q_pure.
  - apply Q_bind; [apply IHl, (W_operand _ _ Hw); cbn; auto|]. intros a.
    apply eval_chain_invariant.
    apply (operands_invariant (ast.Compare l ops comparators)); [exact Hw| |exact IH].
    intros x Hx. cbn. right. apply in_or_app. right. apply in_map. exact Hx.
  - apply Q_bind; [apply IHf, (W_operand _ _ Hw); cbn; auto|]. intros f.
    apply Q_bind.
    + apply eval_args_invariant.
      apply (operands_invariant (ast.Call func args keywords)); [exact Hw| |exact IH].
      intros x Hx. cbn. right. apply in_or_app. left. apply in_map. exact Hx.
    + intros vs. destruct keywords; apply Q_pure.
  - apply Q_pure.
  - apply Q_pure.
Qed.

End EvalInvariant.

Lemma bind_run {A B} (m : run A) (f : A -> run B) :
  m ≫= f =
  match fst m with
  | Ret a => (fst (f a), snd m ++ snd (f a))
  | Raise e => (Raise e, snd m)
  | Unmodelled => (Unmodelled, snd m)
  end.
Proof.
  destruct m as [[a|e|] t]; cbn; try reflexivity.
  destruct (f a). reflexivity.
Qed.

Lemma eval_name env id ctx :
  snd (eval env (ast.Name id ctx)) = [ast.Name id ctx] /\
  (ctx = ast.Load -> env !! id = None ->
   fst (eval env (ast.Name id ctx)) = Raise (NameError id)).
Proof.
  cbn [eval]. rewrite bind_run. cbn.
  destruct ctx; cbn; try (split; [reflexivity | discriminate]).
  destruct (env !! id); cbn; split; try reflexivity; intros; congruence.
Qed.

(** The evaluator visits nodes of the expression it is given only. *)
Lemma eval_visits_tree env e x :
  In x (snd (eval env e)) -> in_tree (ast.N_expr e) (ast.N_expr x).
Proof.
  revert x.
  apply (eval_invariant env
           (fun A m => forall x, In x (snd m) -> in_tree (ast.N_expr e) (ast.N_expr x))
           (fun y => in_tree (ast.N_expr e) (ast.N_expr y))).
  - intros A o x [].
  - intros A B m f Hm Hf x. rewrite bind_run.
    destruct m as [[a|err|] t]; cbn; try apply Hm.
    intros Hx. apply in_app_or in Hx as [Hx|Hx]; [exact (Hm x Hx) | exact (Hf a x Hx)].
  - intros y x Hy Hx. exact (in_tree_child _ _ _ Hy Hx).
  - intros y Hy _ x [<-|[]]. exact Hy.
  - intros id ctx Hy x. rewrite (proj1 (eval_name env id ctx)).
    intros [<-|[]]. exact Hy.
  - apply in_tree_root.
Qed.

(** A lookup of a name that the environment lacks ends the evaluation
    with [NameError]. *)
Lemma eval_missing_name env id e :
  env !! id = None ->
  In (ast.Name id ast.Load) (snd (eval env e)) ->
  fst (eval env e) = Raise (NameError id).
Proof.
  intros Hid.
  apply (eval_invariant env
           (fun A m => In (ast.Name id ast.Load) (snd m) -> fst m = Raise (NameError id))
           (fun _ => True)).
  - intros A o [].
  - intros A B m f Hm Hf. rewrite bind_run.
    destruct m as [[a|err|] t]; cbn in *; intros Hx.
    + apply in_app_or in Hx as [Hx|Hx]; [discriminate (Hm Hx) | exact (Hf a Hx)].
    + specialize (Hm Hx). injection Hm as ->. reflexivity.
    + discriminate (Hm Hx).
  - trivial.
  - intros y _ Hy [->|[]]. exfalso. exact (Hy id ast.Load eq_refl).
  - intros id' ctx _. rewrite (proj1 (eval_name env id' ctx)).
    intros [[= -> ->]|[]]. exact (proj2 (eval_name env id ast.Load) eq_refl Hid).
  - trivial.
Qed.

Lemma check_node_name id ctx :
  check_node (ast.N_expr (ast.Name id ctx)) = None -> id ∈ ALLOWED_NAMES.
Proof.
  unfold check_node. cbn. destruct (bool_decide (id ∈ ALLOWED_NAMES)) eqn:E;
    [intros _ | discriminate].
  apply bool_decide_eq_true in E. exact E.
Qed.

Lemma check_node_name_refused id ctx :
  id ∉ ALLOWED_NAMES ->
  check_node (ast.N_expr (ast.Name id ctx))
  = Some (ValueError (str "Disallowed name: " ++ id)).
Proof.
  intros H. unfold check_node. cbn.
  rewrite bool_decide_eq_false_2 by exact H. reflexivity.
Qed.

Section Names.

Variable ast_parse : ustring -> outcome ast.mod_.

(** [safe_eval_expr] evaluates only when the tree passed validation, and
    then inside the tree. *)
Lemma safe_eval_expr_trace expr env r trace x :
  safe_eval_expr ast_parse expr env = (r, trace) -> In x trace ->
  exists body,
    ast_parse (rewrite_implies expr) = Ret (ast.Expression body) /\
    check_nodes (ast_walk (ast.Expression body)) = None /\
    trace = snd (eval (guard_none_comparisons env ∪ ALLOWED_FUNCS) body) /\
    (forall e, fst (eval (guard_none_comparisons env ∪ ALLOWED_FUNCS) body) = Raise e ->
               r = Raise e).
Proof.
  destruct (ast_parse (rewrite_implies expr)) as [[body]|e|] eqn:Hp.
  - rewrite (safe_eval_expr_parsed _ _ _ _ Hp).
    destruct (check_nodes _) eqn:Hc; [intros [= <- <-] []|].
    rewrite bind_run. intros H Hx. exists body.
    split; [reflexivity|]. split; [exact Hc|].
    set (ev := eval (guard_none_comparisons env ∪ ALLOWED_FUNCS) body) in *.
    destruct (fst ev) eqn:E; cbn [fst snd mret run_ret] in H;
      injection H as <- <-; rewrite ?app_nil_r; (split; [reflexivity|]);
      intros e' [=]; subst; reflexivity.
  - unfold safe_eval_expr. rewrite Hp. cbn. intros [= <- <-] [].
  - unfold safe_eval_expr. rewrite Hp. cbn. intros [= <- <-] [].
Qed.

(** C4, as amended.  When the parsed tree holds a name outside
    [ALLOWED_NAMES], [safe_eval_expr] raises a [ValueError] and evaluates
    nothing; the error is [Disallowed name: <id>] when the name is the
    first node of [ast.walk] to fail a check (earlier nodes may fail
    another check first).  And whatever the expression, every name that an
    evaluation reads is in [ALLOWED_NAMES], the environment of the
    evaluator being the allowed functions and the guarded bindings alone. *)
Theorem name_soundness expr env tree id ctx :
  ast_parse (rewrite_implies expr) = Ret tree ->
  in_tree (ast.N_mod tree) (ast.N_expr (ast.Name id ctx)) ->
  id ∉ ALLOWED_NAMES ->
  (exists msg, safe_eval_expr ast_parse expr env = (Raise (ValueError msg), [])) /\
  (forall before after,
      ast_walk tree = before ++ ast.N_expr (ast.Name id ctx) :: after ->
      check_nodes before = None ->
      safe_eval_expr ast_parse expr env
      = (Raise (ValueError (str "Disallowed name: " ++ id)), [])) /\
  (forall expr' env' r trace id' ctx',
      safe_eval_expr ast_parse expr' env' = (r, trace) ->
      In (ast.Name id' ctx') trace -> id' ∈ ALLOWED_NAMES).
Proof.
  intros Hp Hn Hid. split; [|split].
  - apply (violation_refused ast_parse expr env tree _ Hp Hn).
    right. left. eauto.
  - intros before after Hw Hb. rewrite (safe_eval_expr_parsed _ _ _ _ Hp), Hw.
    rewrite (check_nodes_first before _ after _ Hb (check_node_name_refused id ctx Hid)).
    reflexivity.
  - intros expr' env' r trace id' ctx' Hr Hx.
    destruct (safe_eval_expr_trace _ _ _ _ _ Hr Hx) as (body & Hp' & Hc & -> & _).
    apply (check_node_name id' ctx').
    apply (proj1 (check_nodes_None _) Hc).
    apply ast_walk_complete.
    apply (in_tree_trans _ (ast.N_expr body)).
    + apply (in_tree_child _ (ast.N_mod (ast.Expression body)));
        [apply in_tree_root | left; reflexivity].
    + exact (eval_visits_tree _ _ _ Hx).
Qed.

End Names.

(** ** Guarding *)

Lemma flag_key_inj k k' : flag_key k = flag_key k' -> k = k'.
Proof. unfold flag_key. apply app_inv_tail. Qed.

Lemma guard_step_dom (out : gmap ustring value) (kv : ustring * value) :
  fst kv ∈ dom out -> dom (guard_step out kv) = {[flag_key (fst kv)]} ∪ dom out.
Proof.
  intros H. unfold guard_step. destruct (is_none (snd kv)).
  - rewrite !dom_insert_L. set_solver.
  - rewrite dom_insert_L. reflexivity.
Qed.

Lemma guard_fold_dom (l : list (ustring * value)) (out : gmap ustring value) :
  (forall k, k ∈ l.*1 -> k ∈ dom out) ->
  dom (List.fold_left guard_step l out) = dom out ∪ list_to_set (flag_key <$> l.*1).
Proof.
  revert out. induction l as [|kv l IH]; intros out H; simpl.
  - set_solver.
  - rewrite IH.
    + rewrite guard_step_dom by (apply H; simpl; left). set_solver.
    + intros k Hk. rewrite guard_step_dom by (apply H; simpl; left).
      apply elem_of_union_r, H. simpl. right. exact Hk.
Qed.

(** The keys of the guarded environment. *)
Lemma guard_dom (env : list (ustring * value)) :
  dom (guard_none_comparisons env)
  = list_to_set env.*1 ∪ list_to_set (flag_key <$> env.*1).
Proof.
  unfold guard_none_comparisons. rewrite guard_fold_dom.
  - rewrite dom_list_to_map_L. reflexivity.
  - intros k Hk. rewrite dom_list_to_map_L. set_solver.
Qed.

Lemma guard_step_other (out : gmap ustring value) (kv : ustring * value) j :
  j <> flag_key (fst kv) -> j <> fst kv -> guard_step out kv !! j = out !! j.
Proof.
  intros H1 H2. unfold guard_step. destruct (is_none (snd kv)).
  - rewrite lookup_insert_ne by congruence. apply lookup_insert_ne. congruence.
  - apply lookup_insert_ne. congruence.
Qed.

Lemma guard_fold_other (l : list (ustring * value)) (out : gmap ustring value) j :
  (forall k, k ∈ l.*1 -> j <> flag_key k /\ j <> k) ->
  List.fold_left guard_step l out !! j = out !! j.
Proof.
  revert out. induction l as [|kv l IH]; intros out H; simpl; [reflexivity|].
  rewrite IH by (intros k Hk; apply H; simpl; right; exact Hk).
  destruct (H (fst kv)) as [H1 H2]; [simpl; left|].
  apply guard_step_other; assumption.
Qed.

Lemma guard_step_lookup (out : gmap ustring value) k v :
  flag_key k <> k ->
  guard_step out (k, v) !! flag_key k = Some (VBool (is_none v)) /\
  guard_step out (k, v) !! k = if is_none v then Some nan else out !! k.
Proof.
  intros H. unfold guard_step. simpl. destruct (is_none v).
  - rewrite lookup_insert_ne by congruence. rewrite !lookup_insert_eq. auto.
  - rewrite lookup_insert_eq, lookup_insert_ne by congruence. auto.
Qed.

(** The flag and the value that guarding stores for an item. *)
Lemma guard_lookup (env : list (ustring * value)) k v :
  NoDup env.*1 -> collision_free env -> (k, v) ∈ env ->
  guard_none_comparisons env !! flag_key k = Some (VBool (is_none v)) /\
  guard_none_comparisons env !! k = Some (if is_none v then nan else v).
Proof.
  intros Hnd Hcf Hin. unfold collision_free in Hcf. rewrite Forall_forall in Hcf.
  assert (list_to_map (M := gmap ustring value) env !! k = Some v) as Hk
    by (apply elem_of_list_to_map; assumption).
  assert (k ∈ env.*1) as Hkin by (apply list_elem_of_fmap; exists (k, v); auto).
  assert (flag_key k <> k) as Hfk by (intros E; apply (Hcf k Hkin); rewrite E; exact Hkin).
  unfold guard_none_comparisons.
  remember (list_to_map (M := gmap ustring value) env) as out0 eqn:Hout. clear Hout.
  apply list_elem_of_split in Hin as (l1 & l2 & Henv). subst env.
  assert (forall k', k' ∈ (l1 ++ (k, v) :: l2).*1 -> flag_key k' <> k /\ flag_key k <> k') as Hx.
  { intros k' Hk'. split.
    - intros E. apply (Hcf k' Hk'). rewrite E. exact Hkin.
    - intros E. apply (Hcf k Hkin). rewrite E. exact Hk'. }
  assert (forall k', k' ∈ l1.*1 -> k' ∈ (l1 ++ (k, v) :: l2).*1) as Hl1
    by (intros k' Hk'; rewrite fmap_app; apply elem_of_app; left; exact Hk').
  assert (forall k', k' ∈ l2.*1 -> k' ∈ (l1 ++ (k, v) :: l2).*1) as Hl2
    by (intros k' Hk'; rewrite fmap_app, fmap_cons; apply elem_of_app; right;
        apply elem_of_cons; right; exact Hk').
  rewrite fmap_app, fmap_cons in Hnd. simpl in Hnd.
  apply NoDup_app in Hnd as (_ & Hd1 & Hnd). apply NoDup_cons in Hnd as [Hd2 _].
  rewrite List.fold_left_app. simpl.
  assert (forall j, (j = k \/ j = flag_key k) ->
            List.fold_left guard_step l2 (guard_step (List.fold_left guard_step l1 out0) (k, v)) !! j
            = guard_step (List.fold_left guard_step l1 out0) (k, v) !! j) as Hafter.
  { intros j Hj. apply guard_fold_other. intros k' Hk'.
    destruct (Hx k' (Hl2 k' Hk')) as [Ha Hb].
    destruct Hj as [Hj | Hj]; subst j; split.
    - intros E. exact (Ha (eq_sym E)).
    - intros E. subst k'. exact (Hd2 Hk').
    - intros E. apply flag_key_inj in E. subst k'. exact (Hd2 Hk').
    - exact Hb. }
  assert (List.fold_left guard_step l1 out0 !! k = out0 !! k) as Hbefore.
  { apply guard_fold_other. intros k' Hk'.
    destruct (Hx k' (Hl1 k' Hk')) as [Ha Hb]. split.
    - intros E. exact (Ha (eq_sym E)).
    - intros E. subst k'. apply (Hd1 k Hk'). apply elem_of_cons. left. reflexivity. }
  rewrite !Hafter by auto.
  destruct (guard_step_lookup (List.fold_left guard_step l1 out0) k v Hfk) as [-> ->].
  rewrite Hbefore, Hk. destruct (is_none v); auto.
Qed.

(** A comparison of a NaN binding with a number is false. *)
Lemma nan_comparison (env : gmap ustring value) k op c :
  env !! k = Some nan -> nan_false op = true -> numeric_constant c = true ->
  eval env (ast.Compare (ast.Name k ast.Load) [op] [ast.Constant c])
  = (Ret (VBool false),
     [ast.Compare (ast.Name k ast.Load) [op] [ast.Constant c];
      ast.Name k ast.Load; ast.Constant c]).
Proof.
  intros Hk Hop Hc. cbn [eval eval_chain]. rewrite Hk.
  destruct op; try discriminate; destruct c as [|[]| | | |]; try discriminate;
    reflexivity.
Qed.

(** C5, as amended.  For bindings in which no key is the flag key
    [k_is_none] of a key: the keys of the guarded environment are the
    original keys and a flag key for each of them; the flag of [k] is
    [True] exactly when the value of [k] is [None], whatever the value is
    otherwise; the value under [k] is NaN when it was [None] and is
    unchanged otherwise; and comparing a key that was [None] with a number
    ([==], [<], [<=], [>], [>=]) evaluates to [False] and raises nothing. *)
Theorem guarded_environment (env : list (ustring * value)) :
  NoDup env.*1 -> collision_free env ->
  dom (guard_none_comparisons env)
    = list_to_set env.*1 ∪ list_to_set (flag_key <$> env.*1) /\
  forall k v, (k, v) ∈ env ->
    guard_none_comparisons env !! flag_key k = Some (VBool (is_none v)) /\
    guard_none_comparisons env !! k = Some (if is_none v then nan else v) /\
    (v = VNone ->
     forall op c, nan_false op = true -> numeric_constant c = true ->
       fst (eval (guard_none_comparisons env ∪ ALLOWED_FUNCS)
              (ast.Compare (ast.Name k ast.Load) [op] [ast.Constant c]))
       = Ret (VBool false)).
Proof.
  intros Hnd Hcf. split; [apply guard_dom|].
  intros k v Hin. destruct (guard_lookup env k v Hnd Hcf Hin) as [Hflag Hval].
  repeat split; try assumption.
  intros -> op c Hop Hc. rewrite (nan_comparison _ k op c); [reflexivity| |exact Hop|exact Hc].
  apply lookup_union_Some_l. exact Hval.
Qed.

Lemma guarded_environment_witness :
  let env := [(str "diameter", VNone); (str "n", VInt 3)] in
  dom (guard_none_comparisons env)
    = {[str "diameter"; str "n"; str "diameter_is_none"; str "n_is_none"]} /\
  guard_none_comparisons env !! str "diameter_is_none" = Some (VBool true) /\
  guard_none_comparisons env !! str "diameter" = Some nan /\
  guard_none_comparisons env !! str "n_is_none" = Some (VBool false) /\
  guard_none_comparisons env !! str "n" = Some (VInt 3) /\
  fst (eval (guard_none_comparisons env ∪ ALLOWED_FUNCS)
         (ast.Compare (ast.Name (str "diameter") ast.Load) [ast.LtE]
            [ast.Constant (ast.CInt 3)])) = Ret (VBool false).
Proof.
  intros env.
  assert (NoDup env.*1) as Hnd by compute_done.
  assert (collision_free env) as Hcf by compute_done.
  destruct (guarded_environment env Hnd Hcf) as [Hdom Hitems].
  destruct (Hitems (str "diameter") VNone ltac:(repeat constructor)) as (H1 & H2 & H3).
  destruct (Hitems (str "n") (VInt 3) ltac:(repeat constructor)) as (H4 & H5 & _).
  split; [rewrite Hdom; compute_done|].
  split; [exact H1|]. split; [exact H2|]. split; [exact H4|]. split; [exact H5|].
  exact (H3 eq_refl ast.LtE (ast.CInt 3) eq_refl eq_refl).
Defined.

(** C5 fails as stated when a key is the flag key of another: the later
    item overwrites the flag of the earlier one. *)
Lemma guarded_environment_counterexample :
  let env := [(str "x", VNone); (str "x_is_none", VNone)] in
  NoDup env.*1 /\ (str "x", VNone) ∈ env /\
  guard_none_comparisons env !! flag_key (str "x") = Some nan /\
  guard_none_comparisons env !! flag_key (str "x") <> Some (VBool (is_none VNone)).
Proof.
  intros env. split; [compute_done|]. split; [repeat constructor|].
  assert (guard_none_comparisons env !! flag_key (str "x") = Some nan) as H
    by (vm_compute; reflexivity).
  split; [exact H|]. rewrite H. discriminate.
Qed.

Lemma ast_walk_name name :
  ast_walk (ast.Expression (ast.Name name ast.Load))
  = [ast.N_mod (ast.Expression (ast.Name name ast.Load));
     ast.N_expr (ast.Name name ast.Load); ast.N_ctx ast.Load].
Proof. unfold ast_walk. simp walk. reflexivity. Qed.

(** C6.  The execution context is [{**ALLOWED_FUNCS, **env}]: the guarded
    bindings are applied after the allowed functions, so a name that is
    both a key of [ALLOWED_FUNCS] and a key of the guarded environment is
    looked up to the value of the guarded environment, in the context, in
    the evaluator, and in [safe_eval_expr] on an expression that is that
    name. *)
Theorem binding_shadows_function (env : list (ustring * value)) name v :
  name ∈ dom ALLOWED_FUNCS ->
  guard_none_comparisons env !! name = Some v ->
  (guard_none_comparisons env ∪ ALLOWED_FUNCS) !! name = Some v /\
  eval (guard_none_comparisons env ∪ ALLOWED_FUNCS) (ast.Name name ast.Load)
    = (Ret v, [ast.Name name ast.Load]) /\
  forall ast_parse expr,
    ast_parse (rewrite_implies expr) = Ret (ast.Expression (ast.Name name ast.Load)) ->
    safe_eval_expr ast_parse expr env = (Ret (truthy v), [ast.Name name ast.Load]).
Proof.
  intros Hf Hv.
  assert ((guard_none_comparisons env ∪ ALLOWED_FUNCS) !! name = Some v) as Hl
    by (apply lookup_union_Some_l; exact Hv).
  assert (eval (guard_none_comparisons env ∪ ALLOWED_FUNCS) (ast.Name name ast.Load)
          = (Ret v, [ast.Name name ast.Load])) as He
    by (cbn [eval]; rewrite Hl; reflexivity).
  split; [exact Hl|]. split; [exact He|].
  intros ast_parse expr Hp. rewrite (safe_eval_expr_parsed _ _ _ _ Hp).
  rewrite ast_walk_name. cbn [check_nodes].
  assert (check_node (ast.N_expr (ast.Name name ast.Load)) = None) as ->.
  { unfold check_node. cbn [allowed_node negb].
    rewrite bool_decide_eq_true_2; [reflexivity|].
    unfold ALLOWED_NAMES. apply elem_of_union_r. exact Hf. }
  cbn [check_node allowed_node negb]. rewrite He. reflexivity.
Qed.

Lemma binding_shadows_function_witness :
  (guard_none_comparisons [(str "abs", VInt 0)] ∪ ALLOWED_FUNCS) !! str "abs"
    = Some (VInt 0) /\
  safe_eval_expr parser.parse_expression (str "abs") [(str "abs", VInt 0)]
    = (Ret false, [ast.Name (str "abs") ast.Load]).
Proof.
  destruct (binding_shadows_function [(str "abs", VInt 0)] (str "abs") (VInt 0))
    as (H1 & _ & H3); [compute_done | vm_compute; reflexivity |].
  split; [exact H1|].
  apply (H3 parser.parse_expression (str "abs")). vm_compute. reflexivity.
Defined.

(** ** Names without a binding *)

Lemma flag_key_tail k :
  List.firstn 8 (List.rev (flag_key k)) = List.rev (str "_is_none").
Proof.
  unfold flag_key. rewrite List.rev_app_distr.
  apply (List.firstn_app_2 0 (List.rev (str "_is_none"))).
Qed.

Lemma allowed_var_not_flag x k : In x ALLOWED_VARS -> x <> flag_key k.
Proof.
  intros Hx E. apply (f_equal (fun s => List.firstn 8 (List.rev s))) in E.
  rewrite flag_key_tail in E.
  repeat (destruct Hx as [<-|Hx]; [vm_compute in E; discriminate|]).
  destruct Hx.
Qed.

Lemma allowed_var_not_func x : In x ALLOWED_VARS -> ALLOWED_FUNCS !! x = None.
Proof.
  intros Hx.
  repeat (destruct Hx as [<-|Hx]; [vm_compute; reflexivity|]).
  destruct Hx.
Qed.

(** An allowed variable that the bindings lack is not in the context. *)
Lemma context_missing (env : list (ustring * value)) x :
  In x ALLOWED_VARS -> x ∉ env.*1 ->
  (guard_none_comparisons env ∪ ALLOWED_FUNCS) !! x = None.
Proof.
  intros Hx Hk. apply lookup_union_None. split; [|exact (allowed_var_not_func x Hx)].
  apply not_elem_of_dom. rewrite guard_dom.
  intros H. apply elem_of_union in H as [H|H]; apply elem_of_list_to_set in H.
  - exact (Hk H).
  - apply list_elem_of_fmap in H as (k & E & _). exact (allowed_var_not_flag x k Hx E).
Qed.

Section Missing.

Variable ast_parse : ustring -> outcome ast.mod_.

(** C10, as amended.  When the evaluation of an expression reads an
    allowed variable name that the bindings lack, as in ["diameter <= 3"]
    on empty bindings, the expression has passed validation and
    [safe_eval_expr] ends with a [NameError] for that name, which is none
    of the parse and validation errors.  (An expression that refers to
    such a name without reading it, behind a short-circuit, does not
    fail.) *)
Theorem missing_binding_NameError expr (env : list (ustring * value)) x r trace :
  In x ALLOWED_VARS -> x ∉ env.*1 ->
  safe_eval_expr ast_parse expr env = (r, trace) ->
  In (ast.Name x ast.Load) trace ->
  (exists tree, ast_parse (rewrite_implies expr) = Ret tree /\
                check_nodes (ast_walk tree) = None) /\
  r = Raise (NameError x).
Proof.
  intros Hx Hk Hr Hin.
  destruct (safe_eval_expr_trace _ _ _ _ _ _ Hr Hin) as (body & Hp & Hc & -> & Hraise).
  split; [eauto|]. apply Hraise.
  apply eval_missing_name; [apply context_missing; assumption | exact Hin].
Qed.

End Missing.

Lemma missing_binding_NameError_witness :
  safe_eval_expr parser.parse_expression (str "diameter <= 3") []
  = (Raise (NameError (str "diameter")),
     [ast.Compare (ast.Name (str "diameter") ast.Load) [ast.LtE]
        [ast.Constant (ast.CInt 3)];
      ast.Name (str "diameter") ast.Load]).
Proof.
  assert (safe_eval_expr parser.parse_expression (str "diameter <= 3") []
          = (fst (safe_eval_expr parser.parse_expression (str "diameter <= 3") []),
             [ast.Compare (ast.Name (str "diameter") ast.Load) [ast.LtE]
                [ast.Constant (ast.CInt 3)];
              ast.Name (str "diameter") ast.Load])) as H
    by (vm_compute; reflexivity).
  assert (In (str "diameter") ALLOWED_VARS) as Hx by (vm_compute; tauto).
  assert (str "diameter" ∉ ([] : list (ustring * value)).*1) as Hk
    by (intros Hin; inversion Hin).
  destruct (missing_binding_NameError parser.parse_expression
              (str "diameter <= 3") [] (str "diameter") _ _ Hx Hk H
              ltac:(right; left; reflexivity)) as [_ Hr].
  rewrite H, Hr. reflexivity.
Defined.

(** C10 fails as stated: the expression refers to [diameter], an allowed
    variable that the bindings lack, and evaluates to [True]. *)
Lemma missing_binding_counterexample :
  let tree := ast.Expression
    (ast.BoolOp ast.Or [ast.Constant (ast.CBool true);
                        ast.Name (str "diameter") ast.Load]) in
  parser.parse_expression (rewrite_implies (str "True or diameter")) = Ret tree /\
  in_tree (ast.N_mod tree) (ast.N_expr (ast.Name (str "diameter") ast.Load)) /\
  In (str "diameter") ALLOWED_VARS /\
  fst (safe_eval_expr parser.parse_expression (str "True or diameter") []) = Ret true.
Proof.
  intros tree. split; [vm_compute; reflexivity|]. split.
  - eapply in_tree_child; [eapply in_tree_child; [apply in_tree_root|]|].
    + left. reflexivity.
    + cbn. auto.
  - split; [cbn; auto 10 | vm_compute; reflexivity].
Qed.

(** ** Concrete scenarios *)

(** C1, as the code behaves.  Guarding does bind
    [diameter_is_none] to [True], but the name is not in [ALLOWED_NAMES]:
    validation refuses the expression with [Disallowed name:
    diameter_is_none] and nothing is evaluated. *)
Theorem diameter_is_none_refused :
  let env := [(str "diameter", VNone)] in
  guard_none_comparisons env !! str "diameter_is_none" = Some (VBool true) /\
  parser.parse_expression (rewrite_implies (str "diameter_is_none"))
    = Ret (ast.Expression (ast.Name (str "diameter_is_none") ast.Load)) /\
  str "diameter_is_none" ∉ ALLOWED_NAMES /\
  safe_eval_expr parser.parse_expression (str "diameter_is_none") env
    = (Raise (ValueError (str "Disallowed name: diameter_is_none")), []).
Proof.
  intros env. repeat split; try (vm_compute; reflexivity). compute_done.
Qed.

Lemma validation_precedes_evaluation_witness :
  let tree := ast.Expression
    (ast.Compare
       (ast.Call (ast.Name (str "max") ast.Load)
          [ast.Name (str "n") ast.Load; ast.Name (str "secret_var") ast.Load] [])
       [ast.Gt] [ast.Constant (ast.CInt 0)]) in
  In (ast.N_expr (ast.Name (str "secret_var") ast.Load)) (ast_walk tree) /\
  exists msg,
    safe_eval_expr parser.parse_expression (str "max(n, secret_var) > 0")
      [(str "n", VInt 1)] = (Raise (ValueError msg), []).
Proof.
  intros tree.
  assert (parser.parse_expression (rewrite_implies (str "max(n, secret_var) > 0"))
          = Ret tree) as Hp by (vm_compute; reflexivity).
  assert (in_tree (ast.N_mod tree)
            (ast.N_expr (ast.Name (str "secret_var") ast.Load))) as Hn.
  { eapply in_tree_child;
      [eapply in_tree_child; [eapply in_tree_child; [apply in_tree_root|]|]|].
    - left. reflexivity.
    - left. reflexivity.
    - cbn. auto. }
  destruct (validation_precedes_evaluation parser.parse_expression
              (str "max(n, secret_var) > 0") [(str "n", VInt 1)] tree _ Hp Hn)
    as [Hw Hv].
  split; [exact Hw|]. apply Hv. right. left.
  exists (str "secret_var"), ast.Load. split; [reflexivity | compute_done].
Defined.

Lemma name_soundness_witness :
  safe_eval_expr parser.parse_expression (str "secret_var > 0") []
  = (Raise (ValueError (str "Disallowed name: secret_var")), []).
Proof.
  pose (tree := ast.Expression
    (ast.Compare (ast.Name (str "secret_var") ast.Load) [ast.Gt]
       [ast.Constant (ast.CInt 0)])).
  assert (parser.parse_expression (rewrite_implies (str "secret_var > 0"))
          = Ret tree) as Hp by (vm_compute; reflexivity).
  assert (in_tree (ast.N_mod tree)
            (ast.N_expr (ast.Name (str "secret_var") ast.Load))) as Hn.
  { eapply in_tree_child; [eapply in_tree_child; [apply in_tree_root|]|].
    - left. reflexivity.
    - left. reflexivity. }
  assert (str "secret_var" ∉ ALLOWED_NAMES) as Hid by compute_done.
  destruct (name_soundness parser.parse_expression (str "secret_var > 0") []
              tree (str "secret_var") ast.Load Hp Hn Hid) as (_ & Hfirst & _).
  apply (Hfirst [ast.N_mod tree; ast.N_expr (ast.Compare (ast.Name (str "secret_var") ast.Load) [ast.Gt] [ast.Constant (ast.CInt 0)])]
           [ast.N_cmpop ast.Gt; ast.N_expr (ast.Constant (ast.CInt 0)); ast.N_ctx ast.Load]);
    vm_compute; reflexivity.
Defined.

(** C4 fails as stated: in ["foo(1)"] the name [foo] is outside the
    allowlists, but [ast.walk] yields the call before the name, and the
    error is that of the call. *)
Lemma name_soundness_counterexample :
  let tree := ast.Expression
    (ast.Call (ast.Name (str "foo") ast.Load) [ast.Constant (ast.CInt 1)] []) in
  parser.parse_expression (rewrite_implies (str "foo(1)")) = Ret tree /\
  in_tree (ast.N_mod tree) (ast.N_expr (ast.Name (str "foo") ast.Load)) /\
  str "foo" ∉ ALLOWED_NAMES /\
  safe_eval_expr parser.parse_expression (str "foo(1)") []
    = (Raise (ValueError (str "Only calls to allowed functions are permitted.")), []) /\
  safe_eval_expr parser.parse_expression (str "foo(1)") []
    <> (Raise (ValueError (str "Disallowed name: foo")), []).
Proof.
  intros tree.
  assert (safe_eval_expr parser.parse_expression (str "foo(1)") []
    = (Raise (ValueError (str "Only calls to allowed functions are permitted.")), []))
    as H by (vm_compute; reflexivity).
  split; [vm_compute; reflexivity|]. split.
  - eapply in_tree_child; [eapply in_tree_child; [apply in_tree_root|]|].
    + left. reflexivity.
    + left. reflexivity.
  - split; [compute_done|]. split; [exact H|]. rewrite H. discriminate.
Qed.

(** * Further properties *)

(** ** Guarding, for all bindings *)

(** X5.  Whatever the bindings, [guard_none_comparisons] leaves no [None]
    in its result: every value under every key of the guarded environment
    is something else. *)
Theorem guard_leaves_no_None (env : list (ustring * value)) k :
  guard_none_comparisons env !! k <> Some VNone.
Proof.
  unfold guard_none_comparisons.
  assert (forall (l : list (ustring * value)) (out : gmap ustring value),
            (forall j, out !! j = Some VNone -> (j, VNone) ∈ l) ->
            List.fold_left guard_step l out !! k <> Some VNone) as Hfold.
  { induction l as [|[k0 v0] l IH]; intros out Hout; simpl.
    - intros H. apply Hout in H. inversion H.
    - apply IH. intros j Hj. unfold guard_step in Hj. simpl in Hj.
      assert (<[flag_key k0:=VBool (is_none v0)]> out !! j = Some VNone ->
              out !! j = Some VNone /\ j <> flag_key k0) as Hflag.
      { intros H. destruct (decide (flag_key k0 = j)) as [<-|Hne].
        - rewrite lookup_insert_eq in H. discriminate.
        - rewrite lookup_insert_ne in H by exact Hne. split; congruence. }
      destruct (is_none v0) eqn:Hv0.
      + destruct (decide (k0 = j)) as [<-|Hne].
        * rewrite lookup_insert_eq in Hj. discriminate.
        * rewrite lookup_insert_ne in Hj by exact Hne.
          apply Hflag in Hj as [Hj _]. apply Hout in Hj.
          apply elem_of_cons in Hj as [[= -> _]|Hj]; [congruence | exact Hj].
      + apply Hflag in Hj as [Hj _]. apply Hout in Hj.
        apply elem_of_cons in Hj as [[= _ <-]|Hj]; [discriminate | exact Hj]. }
  apply Hfold. intros j Hj. apply elem_of_list_to_map_2 in Hj. exact Hj.
Qed.

(** The value under a key that is no flag key of the bindings. *)
Lemma guard_fold_plain (l : list (ustring * value)) (out : gmap ustring value) x :
  NoDup l.*1 -> (forall k, k ∈ l.*1 -> x <> flag_key k) ->
  List.fold_left guard_step l out !! x
  = match list_to_map (M := gmap ustring value) l !! x with
    | Some v => if is_none v then Some nan else out !! x
    | None => out !! x
    end.
Proof.
  revert out. induction l as [|[k0 v0] l IH]; intros out Hnd Hx; [reflexivity|].
  simpl in Hnd. apply NoDup_cons in Hnd as [Hk0 Hnd]. simpl.
  rewrite IH; [|exact Hnd|intros k Hk; apply Hx; simpl; right; exact Hk].
  assert (x <> flag_key k0) as Hxf by (apply Hx; simpl; left).
  destruct (decide (k0 = x)) as [->|Hne].
  - rewrite lookup_insert_eq.
    rewrite (not_elem_of_list_to_map_1 _ _ Hk0).
    unfold guard_step. simpl. destruct (is_none v0).
    + apply lookup_insert_eq.
    + apply lookup_insert_ne. congruence.
  - rewrite lookup_insert_ne by exact Hne.
    rewrite (guard_step_other out (k0, v0) x Hxf ltac:(simpl; congruence)).
    reflexivity.
Qed.

Lemma guard_lookup_plain (env : list (ustring * value)) x :
  NoDup env.*1 -> (forall k, k ∈ env.*1 -> x <> flag_key k) ->
  guard_none_comparisons env !! x
  = guarded <$> (list_to_map (M := gmap ustring value) env !! x).
Proof.
  intros Hnd Hx. unfold guard_none_comparisons.
  rewrite (guard_fold_plain env _ x Hnd Hx).
  destruct (list_to_map env !! x) as [v|]; [|reflexivity].
  unfold guarded. simpl. destruct (is_none v); reflexivity.
Qed.

Lemma allowed_func_cases x :
  x ∈ dom ALLOWED_FUNCS ->
  x = str "implies" \/ x = str "max" \/ x = str "min" \/ x = str "abs".
Proof.
  unfold ALLOWED_FUNCS. rewrite !dom_insert_L, dom_empty_L. set_solver.
Qed.

(** No allowed name is a flag key. *)
Lemma allowed_name_not_flag x k : x ∈ ALLOWED_NAMES -> x <> flag_key k.
Proof.
  unfold ALLOWED_NAMES. intros Hx.
  apply elem_of_union in Hx as [Hx|Hx].
  - apply elem_of_list_to_set, list_elem_of_In in Hx.
    exact (allowed_var_not_flag x k Hx).
  - intros E. apply (f_equal (fun s => List.firstn 8 (List.rev s))) in E.
    rewrite flag_key_tail in E.
    destruct (allowed_func_cases x Hx) as [->|[->|[->| ->]]];
      vm_compute in E; discriminate.
Qed.

Section Flags.

Variable ast_parse : ustring -> outcome ast.mod_.

(** X6.  The flags that guarding adds cannot be used: for every key [k]
    of the bindings the guarded environment binds [k_is_none], but no
    such name is in [ALLOWED_NAMES], so every expression that mentions
    one is refused by validation and nothing is evaluated. *)
Theorem flag_keys_refused expr (env : list (ustring * value)) tree k ctx :
  k ∈ env.*1 ->
  ast_parse (rewrite_implies expr) = Ret tree ->
  in_tree (ast.N_mod tree) (ast.N_expr (ast.Name (flag_key k) ctx)) ->
  flag_key k ∈ dom (guard_none_comparisons env) /\
  flag_key k ∉ ALLOWED_NAMES /\
  exists msg, safe_eval_expr ast_parse expr env = (Raise (ValueError msg), []).
Proof.
  intros Hk Hp Hn.
  assert (flag_key k ∉ ALLOWED_NAMES) as Hno
    by (intros H; exact (allowed_name_not_flag _ k H eq_refl)).
  split; [|split; [exact Hno|]].
  - rewrite guard_dom. apply elem_of_union_r, elem_of_list_to_set.
    apply list_elem_of_fmap. exists k. auto.
  - apply (violation_refused ast_parse expr env tree _ Hp Hn).
    right. left. eauto.
Qed.

End Flags.

Lemma flag_keys_refused_witness :
  flag_key (str "n") ∈ dom (guard_none_comparisons [(str "n", VInt 3)]) /\
  flag_key (str "n") ∉ ALLOWED_NAMES /\
  exists msg,
    safe_eval_expr parser.parse_expression (str "not n_is_none") [(str "n", VInt 3)]
    = (Raise (ValueError msg), []).
Proof.
  apply (flag_keys_refused parser.parse_expression (str "not n_is_none")
           [(str "n", VInt 3)]
           (ast.Expression (ast.UnaryOp ast.Not (ast.Name (str "n_is_none") ast.Load)))
           (str "n") ast.Load).
  - compute_done.
  - vm_compute. reflexivity.
  - eapply in_tree_child; [eapply in_tree_child; [apply in_tree_root|]|].
    + left. reflexivity.
    + right. left. reflexivity.
Defined.

(** ** Validation accepts what it should *)

(** [walk] yields nodes of the trees in the queue only. *)
Lemma walk_sound todo x :
  In x (walk todo) -> exists root, In root todo /\ in_tree root x.
Proof.
  funelim (walk todo); [intros []|].
  intros [<-|Hx].
  - exists n. split; [left; reflexivity | apply in_tree_root].
  - destruct (H x Hx) as (root & Hroot & Ht).
    apply in_app_or in Hroot as [Hroot|Hroot].
    + exists root. split; [right; exact Hroot | exact Ht].
    + exists n. split; [left; reflexivity|].
      apply (in_tree_trans _ root); [|exact Ht].
      exact (in_tree_child _ _ _ (in_tree_root n) Hroot).
Qed.

Lemma ast_walk_sound tree n : In n (ast_walk tree) -> in_tree (ast.N_mod tree) n.
Proof.
  intros H. apply walk_sound in H as (root & [<-|[]] & Ht). exact Ht.
Qed.

(** The loop body raises on violations only. *)
Lemma check_node_violation n e : check_node n = Some e -> violation n.
Proof.
  unfold check_node, violation.
  destruct (allowed_node n) eqn:Ha; [|auto]. cbn [negb].
  destruct n as [m|x|c|o|o|o|o|k]; try discriminate.
  destruct x as [| | | |func args kws| |id ctx|]; try discriminate.
  - destruct (allowed_call_target func) eqn:E; [discriminate|]. intros _.
    right. right. exists func, args, kws. split; [reflexivity|].
    intros H. apply allowed_call_target_spec in H. congruence.
  - destruct (bool_decide (id ∈ ALLOWED_NAMES)) eqn:E; [discriminate|]. intros _.
    right. left. exists id, ctx. split; [reflexivity|].
    apply bool_decide_eq_false in E. exact E.
Qed.

(** Validation passes exactly on the trees without a violation. *)
Lemma check_nodes_no_violation tree :
  check_nodes (ast_walk tree) = None <->
  forall n, in_tree (ast.N_mod tree) n -> ~ violation n.
Proof.
  rewrite check_nodes_None. split.
  - intros H n Hn Hv. apply (violation_check_node n Hv).
    apply H, ast_walk_complete, Hn.
  - intros H n Hn. destruct (check_node n) as [e|] eqn:E; [|reflexivity].
    exfalso. apply (H n (ast_walk_sound _ _ Hn)).
    exact (check_node_violation n e E).
Qed.

Section Accepts.

Variable ast_parse : ustring -> outcome ast.mod_.

(** X7.  Validation refuses nothing else: when every node of the parsed
    tree is of an allowed class, every name is in [ALLOWED_NAMES] and
    every call targets the plain name of an allowed function,
    [safe_eval_expr] goes on to evaluate the tree in the allowed functions
    overlaid with the guarded bindings, and returns the truth value of
    the result. *)
Theorem validation_accepts expr (env : list (ustring * value)) body :
  ast_parse (rewrite_implies expr) = Ret (ast.Expression body) ->
  (forall n, in_tree (ast.N_mod (ast.Expression body)) n -> ~ violation n) ->
  safe_eval_expr ast_parse expr env
  = (v ← eval (guard_none_comparisons env ∪ ALLOWED_FUNCS) body; mret (truthy v)).
Proof.
  intros Hp Hok. rewrite (safe_eval_expr_parsed _ _ _ _ Hp).
  rewrite (proj2 (check_nodes_no_violation _) Hok). reflexivity.
Qed.

End Accepts.

Lemma validation_accepts_witness :
  safe_eval_expr parser.parse_expression (str "max(n, m) > 10")
    [(str "n", VInt 5); (str "m", VInt 12)]
  = (Ret true,
     [ast.Compare
        (ast.Call (ast.Name (str "max") ast.Load)
           [ast.Name (str "n") ast.Load; ast.Name (str "m") ast.Load] [])
        [ast.Gt] [ast.Constant (ast.CInt 10)];
      ast.Call (ast.Name (str "max") ast.Load)
        [ast.Name (str "n") ast.Load; ast.Name (str "m") ast.Load] [];
      ast.Name (str "max") ast.Load; ast.Name (str "n") ast.Load;
      ast.Name (str "m") ast.Load; ast.Constant (ast.CInt 10)]).
Proof.
  rewrite (validation_accepts parser.parse_expression (str "max(n, m) > 10")
             [(str "n", VInt 5); (str "m", VInt 12)]
             (ast.Compare
                (ast.Call (ast.Name (str "max") ast.Load)
                   [ast.Name (str "n") ast.Load; ast.Name (str "m") ast.Load] [])
                [ast.Gt] [ast.Constant (ast.CInt 10)])).
  - vm_compute. reflexivity.
  - vm_compute. reflexivity.
  - apply check_nodes_no_violation. vm_compute. reflexivity.
Defined.

(** ** Missing values in the pipeline *)

Lemma allowed_var_name k : In k ALLOWED_VARS -> k ∈ ALLOWED_NAMES.
Proof.
  intros H. unfold ALLOWED_NAMES.
  apply elem_of_union_l, elem_of_list_to_set, list_elem_of_In, H.
Qed.

(** The guarded binding of an allowed name. *)
Lemma guard_lookup_allowed (env : list (ustring * value)) x v :
  x ∈ ALLOWED_NAMES -> NoDup env.*1 -> (x, v) ∈ env ->
  guard_none_comparisons env !! x = Some (guarded v).
Proof.
  intros Hx Hnd Hin.
  rewrite guard_lookup_plain;
    [|exact Hnd|intros k _; exact (allowed_name_not_flag x k Hx)].
  rewrite (elem_of_list_to_map_1 _ _ _ Hnd Hin). reflexivity.
Qed.

Lemma ast_walk_compare k op c :
  ast_walk (ast.Expression (ast.Compare (ast.Name k ast.Load) [op] [ast.Constant c]))
  = [ast.N_mod (ast.Expression (ast.Compare (ast.Name k ast.Load) [op] [ast.Constant c]));
     ast.N_expr (ast.Compare (ast.Name k ast.Load) [op] [ast.Constant c]);
     ast.N_expr (ast.Name k ast.Load); ast.N_cmpop op;
     ast.N_expr (ast.Constant c); ast.N_ctx ast.Load].
Proof. unfold ast_walk. simp walk. reflexivity. Qed.

Lemma check_node_allowed_name k ctx :
  k ∈ ALLOWED_NAMES -> check_node (ast.N_expr (ast.Name k ctx)) = None.
Proof.
  intros H. unfold check_node. cbn [allowed_node negb].
  rewrite bool_decide_eq_true_2 by exact H. reflexivity.
Qed.

Section MissingValues.

Variable ast_parse : ustring -> outcome ast.mod_.

(** X9.  A missing value makes a comparison false instead of an error:
    when an allowed variable is bound to [None], [safe_eval_expr] on a
    comparison ([==], [<], [<=], [>], [>=]) of that variable with a number
    returns [False], whatever else the bindings hold; evaluated on the
    unguarded bindings, the ordering comparisons would raise [TypeError]. *)
Theorem missing_value_compares_false expr (env : list (ustring * value)) k op c :
  ast_parse (rewrite_implies expr)
    = Ret (ast.Expression (ast.Compare (ast.Name k ast.Load) [op] [ast.Constant c])) ->
  In k ALLOWED_VARS -> NoDup env.*1 -> (k, VNone) ∈ env ->
  nan_false op = true -> numeric_constant c = true ->
  fst (safe_eval_expr ast_parse expr env) = Ret false /\
  (ordering op = true ->
   fst (eval (list_to_map env ∪ ALLOWED_FUNCS)
          (ast.Compare (ast.Name k ast.Load) [op] [ast.Constant c]))
   = Raise TypeError).
Proof.
  intros Hp Hk Hnd Hin Hop Hc. split.
  - rewrite (safe_eval_expr_parsed _ _ _ _ Hp), ast_walk_compare.
    cbn [check_nodes].
    rewrite (check_node_allowed_name k ast.Load (allowed_var_name k Hk)).
    assert (check_node (ast.N_cmpop op) = None) as ->
      by (destruct op; try discriminate; reflexivity).
    cbn [check_node allowed_node negb].
    rewrite (nan_comparison _ k op c); [reflexivity| |exact Hop|exact Hc].
    apply lookup_union_Some_l.
    exact (guard_lookup_allowed env k VNone (allowed_var_name k Hk) Hnd Hin).
  - intros Hord. cbn [eval eval_chain].
    rewrite (lookup_union_Some_l _ _ _ _ (elem_of_list_to_map_1 _ _ _ Hnd Hin)).
    destruct op; try discriminate; destruct c as [|[]| | | |]; try discriminate;
      reflexivity.
Qed.

End MissingValues.

Lemma missing_value_compares_false_witness :
  let env := [(str "is_connected", VBool true); (str "diameter", VNone);
              (str "diameter_is_none", VInt 7)] in
  fst (safe_eval_expr parser.parse_expression (str "diameter <= 3") env) = Ret false /\
  fst (eval (list_to_map env ∪ ALLOWED_FUNCS)
         (ast.Compare (ast.Name (str "diameter") ast.Load) [ast.LtE]
            [ast.Constant (ast.CInt 3)])) = Raise TypeError.
Proof.
  intros env.
  destruct (missing_value_compares_false parser.parse_expression
              (str "diameter <= 3") env (str "diameter") ast.LtE (ast.CInt 3))
    as [H1 H2].
  - vm_compute. reflexivity.
  - vm_compute. tauto.
  - compute_done.
  - right. left.
  - reflexivity.
  - reflexivity.
  - split; [exact H1 | exact (H2 eq_refl)].
Defined.

(** ** What the result depends on *)






Section Dependence.

Variable ast_parse : ustring -> outcome ast.mod_.


End Dependence.


(** ** Implication over bindings *)

(** [bool(implies(a, b))] is the implication of the truth values. *)
Lemma implies_truthy a b : truthy (implies a b) = implb (truthy a) (truthy b).
Proof. unfold implies. destruct (truthy a); reflexivity. Qed.

Lemma ast_walk_implies x y :
  let call := ast.Call (ast.Name (str "implies") ast.Load)
                [ast.Name x ast.Load; ast.Name y ast.Load] [] in
  ast_walk (ast.Expression call)
  = [ast.N_mod (ast.Expression call); ast.N_expr call;
     ast.N_expr (ast.Name (str "implies") ast.Load);
     ast.N_expr (ast.Name x ast.Load); ast.N_expr (ast.Name y ast.Load);
     ast.N_ctx ast.Load; ast.N_ctx ast.Load; ast.N_ctx ast.Load].
Proof. intros call. unfold ast_walk. simp walk. reflexivity. Qed.

(** A function name that the bindings do not use is bound to the
    function. *)
Lemma context_function (env : list (ustring * value)) f v :
  ALLOWED_FUNCS !! f = Some v -> f ∉ env.*1 ->
  (guard_none_comparisons env ∪ ALLOWED_FUNCS) !! f = Some v.
Proof.
  intros Hf Hk. rewrite lookup_union_r; [exact Hf|].
  apply not_elem_of_dom. rewrite guard_dom.
  intros H. apply elem_of_union in H as [H|H]; apply elem_of_list_to_set in H.
  - exact (Hk H).
  - apply list_elem_of_fmap in H as (k & E & _).
    apply (allowed_name_not_flag f k); [|exact E].
    unfold ALLOWED_NAMES. apply elem_of_union_r, elem_of_dom. eauto.
Qed.

Section Implication.

Variable ast_parse : ustring -> outcome ast.mod_.

(** X4.  On the call [implies(x, y)] of two allowed variables that are
    bound, with [implies] itself not rebound, [safe_eval_expr] returns
    the implication of the truth values of the guarded bindings; a
    variable bound to [None] counts as true there, NaN being true. *)
Theorem implies_of_bindings expr (env : list (ustring * value)) x y vx vy :
  ast_parse (rewrite_implies expr)
    = Ret (ast.Expression
             (ast.Call (ast.Name (str "implies") ast.Load)
                [ast.Name x ast.Load; ast.Name y ast.Load] [])) ->
  In x ALLOWED_VARS -> In y ALLOWED_VARS -> NoDup env.*1 ->
  (x, vx) ∈ env -> (y, vy) ∈ env -> str "implies" ∉ env.*1 ->
  fst (safe_eval_expr ast_parse expr env)
    = Ret (implb (truthy (guarded vx)) (truthy (guarded vy))) /\
  truthy (guarded VNone) = true.
Proof.
  intros Hp Hx Hy Hnd Hvx Hvy Hfree. split; [|reflexivity].
  rewrite (safe_eval_expr_parsed _ _ _ _ Hp), ast_walk_implies.
  cbn [check_nodes].
  rewrite (check_node_allowed_name x ast.Load (allowed_var_name x Hx)).
  rewrite (check_node_allowed_name y ast.Load (allowed_var_name y Hy)).
  assert (check_node (ast.N_expr (ast.Name (str "implies") ast.Load)) = None) as ->
    by (vm_compute; reflexivity).
  assert (check_node (ast.N_expr (ast.Call (ast.Name (str "implies") ast.Load)
            [ast.Name x ast.Load; ast.Name y ast.Load] [])) = None) as ->
    by (vm_compute; reflexivity).
  cbn [check_node allowed_node negb eval eval_args].
  rewrite (context_function env (str "implies") (VFunc py_implies)
             ltac:(vm_compute; reflexivity) Hfree).
  rewrite (lookup_union_Some_l _ _ _ _
             (guard_lookup_allowed env x vx (allowed_var_name x Hx) Hnd Hvx)).
  rewrite (lookup_union_Some_l _ _ _ _
             (guard_lookup_allowed env y vy (allowed_var_name y Hy) Hnd Hvy)).
  cbn. rewrite implies_truthy. reflexivity.
Qed.

End Implication.

Lemma implies_of_bindings_witness :
  rewrite_implies (str "is_connected implies density")
    = str "implies(is_connected, density)" /\
  fst (safe_eval_expr parser.parse_expression (str "is_connected implies density")
         [(str "is_connected", VNone); (str "density", VInt 0)]) = Ret false.
Proof.
  split; [vm_compute; reflexivity|].
  refine (proj1 (implies_of_bindings parser.parse_expression
                   (str "is_connected implies density")
                   [(str "is_connected", VNone); (str "density", VInt 0)]
                   (str "is_connected") (str "density") VNone (VInt 0)
                   _ _ _ _ _ _ _)).
  - vm_compute. reflexivity.
  - vm_compute. tauto.
  - vm_compute. tauto.
  - compute_done.
  - left.
  - right. left.
  - compute_done.
Defined.

(** ** The rewriter on its inputs *)

Lemma contains_spec p s : contains p s = true <-> occurs p s.
Proof.
  split.
  - induction s as [|c t IH]; simpl.
    + destruct (strip_prefix p []) as [rest|] eqn:E; [|discriminate].
      intros _. apply strip_prefix_spec in E. exists [], rest. exact E.
    + destruct (strip_prefix p (c :: t)) as [rest|] eqn:E.
      * intros _. apply strip_prefix_spec in E. exists [], rest. exact E.
      * intros H. destruct (IH H) as (a & b & ->). exists (c :: a), b. reflexivity.
  - intros (a & b & ->). induction a as [|c a IH].
    + assert (strip_prefix p (p ++ b) = Some b) as E
        by (apply strip_prefix_spec; reflexivity).
      simpl. destruct b, p; simpl in *; rewrite ?E; try reflexivity.
      all: destruct (strip_prefix _ _); try reflexivity; discriminate.
    + simpl. destruct (strip_prefix p (c :: a ++ p ++ b)); [reflexivity | exact IH].
Qed.

Lemma infix_implies_occurs s : infix_implies s -> occurs kw_implies s.
Proof.
  intros (pre & l & ws1 & ws2 & r & post & -> & _).
  exists (pre ++ l ++ ws1), (ws2 ++ r ++ post).
  repeat rewrite <- app_assoc. reflexivity.
Qed.

Lemma rewrite_implies_spaces expr : spaces (rewrite_implies expr) <= spaces expr.
Proof.
  funelim (rewrite_implies expr); [|lia].
  pose proof (replace_match_spaces _ _ e) as Hlt.
  unfold re_sub1 in *. rewrite e in *. lia.
Qed.

(** X2.  [rewrite_implies] returns its input unchanged exactly when the
    input holds no infix [implies]; in particular a text in which the word
    [implies] does not occur is returned as it is. *)
Theorem rewrite_implies_unchanged expr :
  (rewrite_implies expr = expr <-> ~ infix_implies expr) /\
  (~ occurs kw_implies expr -> rewrite_implies expr = expr).
Proof.
  assert (~ infix_implies expr -> rewrite_implies expr = expr) as Hfix.
  { intros H. apply re_search_infix in H.
    rewrite rewrite_implies_step, H. reflexivity. }
  split; [split; [|exact Hfix]|].
  - intros Heq Hinf.
    destruct (re_search pattern expr) as [m|] eqn:E;
      [|exact (proj1 (re_search_infix expr) E Hinf)].
    rewrite rewrite_implies_step, E in Heq.
    pose proof (rewrite_implies_spaces (re_sub1 pattern replacement expr)) as Hle.
    pose proof (replace_match_spaces _ _ E) as Hlt.
    unfold re_sub1 in Heq, Hle. rewrite E in Heq, Hle. rewrite Heq in Hle. lia.
  - intros H. apply Hfix. intros Hinf. exact (H (infix_implies_occurs _ Hinf)).
Qed.

Lemma rewrite_implies_unchanged_witness :
  rewrite_implies (str "abs(n - m) <= max_degree") = str "abs(n - m) <= max_degree".
Proof.
  apply (proj2 (rewrite_implies_unchanged (str "abs(n - m) <= max_degree"))).
  intros H. apply contains_spec in H. discriminate H.
Defined.

(** One replacement trades the white space around the keyword for
    punctuation. *)
Lemma replace_match_length s m :
  re_search pattern s = Some m ->
  length (replace_match replacement m) + 2 * spaces (replace_match replacement m)
  <= length s + 2 * spaces s.
Proof.
  intros H. apply re_search_sound in H as [Hs Hm].
  apply matches_pattern_inv in Hm
    as (g1 & ws1 & ws2 & g2 & Hw & Hg & _ & _ & Hn1 & Hs1 & Hn2 & Hs2 & _ & _).
  rewrite Hs. unfold replace_match. rewrite (expand_replacement m g1 g2 Hg), Hw.
  repeat rewrite spaces_app. repeat rewrite List.length_app.
  rewrite (spaces_all ws1 Hs1), (spaces_all ws2 Hs2).
  change (spaces kw_implies) with 0.
  change (spaces (str "implies(")) with 0.
  change (spaces (str ", ")) with 1.
  change (spaces (str ")")) with 0.
  change (length kw_implies) with 7.
  change (length (str "implies(")) with 8.
  change (length (str ", ")) with 2.
  change (length (str ")")) with 1.
  destruct ws1; [congruence|]. destruct ws2; [congruence|]. simpl. lia.
Qed.

(** X3.  The output of [rewrite_implies] is bounded by its input: it has
    no more white-space characters, and its length plus twice its white
    space is at most that of the input (so it is at most two characters
    longer per white-space character of the input). *)
Theorem rewrite_implies_bounded expr :
  spaces (rewrite_implies expr) <= spaces expr /\
  length (rewrite_implies expr) + 2 * spaces (rewrite_implies expr)
    <= length expr + 2 * spaces expr.
Proof.
  split; [apply rewrite_implies_spaces|].
  funelim (rewrite_implies expr); [|lia].
  pose proof (replace_match_length _ _ e) as Hle.
  unfold re_sub1 in *. rewrite e in *. lia.
Qed.

(** *** The first match of the engine *)

Lemma hd_error_map {A B} (f : A -> B) l :
  List.hd_error (List.map f l) = option_map f (List.hd_error l).
Proof. destruct l; reflexivity. Qed.

Lemma attempts_seq_head r1 r2 s a b :
  List.hd_error (attempts r1 s) = Some a ->
  List.hd_error (attempts r2 (at_rest a)) = Some b ->
  List.hd_error (attempts (Seq r1 r2) s)
  = Some (Attempt (at_text a ++ at_text b) (at_groups a ++ at_groups b) (at_rest b)).
Proof.
  cbn [attempts]. destruct (attempts r1 s) as [|a' l1]; [discriminate|].
  intros [= ->]. cbn [List.flat_map].
  destruct (attempts r2 (at_rest a)) as [|b' l2]; [discriminate|].
  intros [= ->]. reflexivity.
Qed.

Lemma attempts_group_head r s a :
  List.hd_error (attempts r s) = Some a ->
  List.hd_error (attempts (Group r) s)
  = Some (Attempt (at_text a) (at_text a :: at_groups a) (at_rest a)).
Proof.
  cbn [attempts]. rewrite hd_error_map. intros ->. reflexivity.
Qed.

Lemma attempts_lit_head l rest :
  List.hd_error (attempts (Lit l) (l ++ rest)) = Some (Attempt l [] rest).
Proof.
  cbn [attempts].
  rewrite (proj2 (strip_prefix_spec l (l ++ rest) rest) eq_refl). reflexivity.
Qed.

(** The longest run comes last. *)
Lemma runs_longest f w rest :
  w <> [] -> forallb f w = true ->
  match rest with [] => True | c :: _ => f c = false end ->
  exists more, List.rev (runs f (w ++ rest)) = (w, rest) :: more.
Proof.
  intros Hw Hall Hrest. induction w as [|c w IH]; [congruence|].
  simpl in Hall. apply andb_true_iff in Hall as [Hc Hall].
  destruct w as [|c' w].
  - cbn [app runs]. rewrite Hc.
    assert (runs f rest = []) as ->
      by (destruct rest as [|d rest]; [reflexivity | simpl; rewrite Hrest; reflexivity]).
    exists []. reflexivity.
  - destruct (IH ltac:(discriminate) Hall) as [more Hmore].
    change ((c :: c' :: w) ++ rest) with (c :: (c' :: w) ++ rest).
    cbn [runs]. rewrite Hc. cbn [List.rev]. rewrite <- List.map_rev, Hmore.
    eexists. reflexivity.
Qed.

Lemma attempts_greedy_head k w rest :
  w <> [] -> forallb (cls_match k) w = true ->
  match rest with [] => True | c :: _ => cls_match k c = false end ->
  List.hd_error (attempts (Plus k true) (w ++ rest)) = Some (Attempt w [] rest).
Proof.
  intros Hw Hall Hrest. cbn [attempts]. rewrite hd_error_map.
  destruct (runs_longest _ w rest Hw Hall Hrest) as [more ->]. reflexivity.
Qed.

(** The part of [pattern] after its first group. *)
Definition pattern_tail : regex :=
  Seq (Plus ClsSpace true)
    (Seq (Lit kw_implies)
      (Seq (Plus ClsSpace true)
           (Group (Plus ClsDot true)))).

Lemma pattern_tail_head ws1 ws2 r :
  ws1 <> [] -> forallb is_space ws1 = true ->
  ws2 <> [] -> forallb is_space ws2 = true ->
  starts_plain r = true -> forallb is_dot r = true ->
  List.hd_error (attempts pattern_tail (ws1 ++ kw_implies ++ ws2 ++ r))
  = Some (Attempt (ws1 ++ kw_implies ++ ws2 ++ r) [r] []).
Proof.
  intros H1 H1' H2 H2' Hr Hr'.
  destruct r as [|c r]; [discriminate|]. simpl in Hr.
  apply negb_true_iff in Hr.
  assert (List.hd_error (attempts (Group (Plus ClsDot true)) (c :: r))
          = Some (Attempt (c :: r) [c :: r] [])) as G2.
  { rewrite (attempts_group_head _ _ (Attempt (c :: r) [] [])); [reflexivity|].
    rewrite <- (app_nil_r (c :: r)) at 1.
    apply attempts_greedy_head; [discriminate | exact Hr' | exact I]. }
  assert (List.hd_error (attempts (Seq (Plus ClsSpace true) (Group (Plus ClsDot true)))
                           (ws2 ++ c :: r))
          = Some (Attempt (ws2 ++ c :: r) [c :: r] [])) as S2.
  { rewrite (attempts_seq_head _ _ _ (Attempt ws2 [] (c :: r))
               (Attempt (c :: r) [c :: r] [])); [reflexivity| |exact G2].
    apply attempts_greedy_head; [exact H2 | exact H2' | exact Hr]. }
  assert (List.hd_error (attempts (Seq (Lit kw_implies)
                             (Seq (Plus ClsSpace true) (Group (Plus ClsDot true))))
                           (kw_implies ++ ws2 ++ c :: r))
          = Some (Attempt (kw_implies ++ ws2 ++ c :: r) [c :: r] [])) as L.
  { rewrite (attempts_seq_head _ _ _ (Attempt kw_implies [] (ws2 ++ c :: r))
               (Attempt (ws2 ++ c :: r) [c :: r] []));
      [reflexivity | apply attempts_lit_head | exact S2]. }
  unfold pattern_tail.
  rewrite (attempts_seq_head _ _ _ (Attempt ws1 [] (kw_implies ++ ws2 ++ c :: r))
             (Attempt (kw_implies ++ ws2 ++ c :: r) [c :: r] []));
    [reflexivity| |exact L].
  apply attempts_greedy_head; [exact H1 | exact H1' | reflexivity].
Qed.

Lemma pattern_tail_plain c t : is_space c = false -> attempts pattern_tail (c :: t) = [].
Proof. intros H. cbn. rewrite H. reflexivity. Qed.

(** The attempts of a lazy first group followed by [r]. *)
Definition lazy_attempts (r : regex) (rs : list (ustring * ustring)) : list attempt :=
  List.flat_map (fun a =>
    List.map (fun b => Attempt (at_text a ++ at_text b)
                         (at_groups a ++ at_groups b) (at_rest b))
      (attempts r (at_rest a)))
    (List.map (fun a => Attempt (at_text a) (at_text a :: at_groups a) (at_rest a))
       (List.map (fun pr => Attempt (fst pr) [] (snd pr)) rs)).

(** One more character in front of a match and of its first group. *)
Definition shift (c : N) (a : attempt) : attempt :=
  Attempt (c :: at_text a)
    (match at_groups a with g :: gs => (c :: g) :: gs | [] => [] end)
    (at_rest a).

Lemma lazy_attempts_shift r c rs :
  lazy_attempts r (List.map (fun pr => (c :: fst pr, snd pr)) rs)
  = List.map (shift c) (lazy_attempts r rs).
Proof.
  unfold lazy_attempts. induction rs as [|[w rest] rs IH]; [reflexivity|].
  cbn [List.map List.flat_map fst snd at_text at_groups at_rest].
  rewrite List.map_app, IH. f_equal.
  rewrite List.map_map. reflexivity.
Qed.

(** With a left operand free of white space, the lazy group takes all of
    it. *)
Lemma lazy_group_head l rest a :
  l <> [] -> forallb (fun c => negb (is_space c)) l = true ->
  List.hd_error (attempts pattern_tail rest) = Some a ->
  List.hd_error (lazy_attempts pattern_tail (runs is_dot (l ++ rest)))
  = Some (Attempt (l ++ at_text a) (l :: at_groups a) (at_rest a)).
Proof.
  intros Hl Hall Ha. induction l as [|c l IH]; [congruence|].
  simpl in Hall. apply andb_true_iff in Hall as [Hc Hall].
  apply negb_true_iff in Hc.
  assert (is_dot c = true) as Hd.
  { unfold is_dot. destruct (N.eqb_spec c 10) as [->|]; [discriminate | reflexivity]. }
  cbn [app runs]. rewrite Hd. destruct l as [|c' l].
  - unfold lazy_attempts. cbn [app List.map List.flat_map fst snd at_text at_groups at_rest].
    destruct (attempts pattern_tail rest) as [|a' more]; [discriminate|].
    injection Ha as ->. reflexivity.
  - specialize (IH ltac:(discriminate) Hall).
    assert (is_space c' = false) as Hc'.
    { simpl in Hall. apply andb_true_iff in Hall as [H _].
      apply negb_true_iff in H. exact H. }
    unfold lazy_attempts at 1.
    cbn [List.map List.flat_map fst snd at_text at_groups at_rest].
    change ((c' :: l) ++ rest) with (c' :: l ++ rest).
    rewrite (pattern_tail_plain c' (l ++ rest) Hc'). cbn [List.map app].
    change (List.flat_map _ _) with
      (lazy_attempts pattern_tail
         (List.map (fun pr => (c :: fst pr, snd pr)) (runs is_dot (c' :: l ++ rest)))).
    rewrite lazy_attempts_shift, hd_error_map.
    change (c' :: l ++ rest) with ((c' :: l) ++ rest). rewrite IH. reflexivity.
Qed.

(** The match that [re.search] finds on one infix [implies] whose left
    operand holds no white space. *)
Lemma re_search_single l ws1 ws2 r :
  l <> [] -> forallb (fun c => negb (is_space c)) l = true ->
  ws1 <> [] -> forallb is_space ws1 = true ->
  ws2 <> [] -> forallb is_space ws2 = true ->
  starts_plain r = true -> forallb is_dot r = true ->
  re_search pattern (l ++ ws1 ++ kw_implies ++ ws2 ++ r)
  = Some (RMatch [] (l ++ ws1 ++ kw_implies ++ ws2 ++ r) [l; r] []).
Proof.
  intros Hl Hl' H1 H1' H2 H2' Hr Hr'.
  pose proof (lazy_group_head l _ _ Hl Hl'
                (pattern_tail_head ws1 ws2 r H1 H1' H2 H2' Hr Hr')) as H.
  unfold re_search. destruct l as [|c l]; [congruence|].
  cbn [app search_from]. unfold match_here.
  change (attempts pattern (c :: l ++ ws1 ++ kw_implies ++ ws2 ++ r))
    with (lazy_attempts pattern_tail
            (runs is_dot ((c :: l) ++ ws1 ++ kw_implies ++ ws2 ++ r))).
  rewrite H. reflexivity.
Qed.

(** *** The result holds no further match *)

(** An infix [implies] has a white-space character on each side of the
    keyword. *)
Lemma infix_implies_core s :
  infix_implies s ->
  exists x w1 w2 y,
    s = x ++ w1 :: kw_implies ++ w2 :: y /\ is_space w1 = true /\ is_space w2 = true.
Proof.
  intros (pre & l & ws1 & ws2 & r & post & -> & _ & _ & H1 & H1' & H2 & H2' & _).
  destruct (exists_last H1) as (ws1' & w1 & ->).
  destruct ws2 as [|w2 ws2']; [congruence|].
  exists (pre ++ l ++ ws1'), w1, w2, (ws2' ++ r ++ post). split.
  - repeat rewrite <- app_assoc. reflexivity.
  - rewrite forallb_app in H1'. simpl in H1', H2'.
    apply andb_true_iff in H1' as [_ H1']. apply andb_true_iff in H1' as [H1' _].
    apply andb_true_iff in H2' as [H2' _]. auto.
Qed.

(** Where the first white-space character of a text is. *)
Lemma first_space a sp rest x w z :
  forallb (fun c => negb (is_space c)) a = true -> is_space w = true ->
  x ++ w :: z = a ++ sp :: rest ->
  (x = a /\ z = rest) \/ exists d, rest = d ++ w :: z.
Proof.
  intros Ha Hw. revert x. induction a as [|c a IH]; intros x H.
  - destruct x as [|x0 x]; simpl in H.
    + injection H as _ H. left. auto.
    + injection H as _ H. right. exists x. auto.
  - simpl in Ha. apply andb_true_iff in Ha as [Hc Ha].
    destruct x as [|x0 x]; simpl in H.
    + injection H as -> _. rewrite Hw in Hc. discriminate.
    + injection H as -> H. destruct (IH Ha x H) as [[-> ->]|[d ->]].
      * left. auto.
      * right. exists d. reflexivity.
Qed.

(** A keyword followed by white space inside [r ++ ")"] lies inside [r]. *)
Lemma occurs_before_paren r p w2 y :
  is_space w2 = true ->
  r ++ str ")" = p ++ kw_implies ++ w2 :: y -> occurs kw_implies r.
Proof.
  intros Hw H. induction y as [|yl y' _] using List.rev_ind.
  - exfalso.
    rewrite !app_assoc in H. apply app_inj_tail in H as [_ H].
    rewrite <- H in Hw. discriminate Hw.
  - rewrite app_comm_cons, !app_assoc in H. apply app_inj_tail in H as [H _].
    exists p, (w2 :: y'). rewrite H, <- !app_assoc. reflexivity.
Qed.

Lemma function_form_fixed l r :
  forallb (fun c => negb (is_space c)) l = true ->
  ~ occurs kw_implies r ->
  ~ infix_implies (str "implies(" ++ l ++ str ", " ++ r ++ str ")").
Proof.
  intros Hl Hr Hinf.
  apply infix_implies_core in Hinf as (x & w1 & w2 & y & E & Hw1 & Hw2).
  assert (str "implies(" ++ l ++ str ", " ++ r ++ str ")"
          = (str "implies(" ++ l ++ str ",") ++ 32%N :: (r ++ str ")")) as Et
    by (repeat rewrite <- app_assoc; reflexivity).
  rewrite Et in E. symmetry in E.
  apply first_space in E as [[_ E]|[d E]]; [| | |exact Hw1].
  - apply (Hr (occurs_before_paren r [] w2 y Hw2 (eq_sym E))).
  - apply Hr, (occurs_before_paren r (d ++ [w1]) w2 y Hw2).
    rewrite E, <- app_assoc. reflexivity.
  - rewrite !forallb_app, Hl. reflexivity.
Qed.

(** X1.  One infix [implies] is put in function form: for a left operand
    without white space, any white space around the keyword, and a right
    operand on one line that starts with a plain character and does not
    hold the word [implies], [rewrite_implies] returns
    [implies(<left>, <right>)]. *)
Theorem rewrite_implies_single l ws1 ws2 r :
  l <> [] -> forallb (fun c => negb (is_space c)) l = true ->
  ws1 <> [] -> forallb is_space ws1 = true ->
  ws2 <> [] -> forallb is_space ws2 = true ->
  starts_plain r = true -> forallb is_dot r = true ->
  ~ occurs kw_implies r ->
  rewrite_implies (l ++ ws1 ++ kw_implies ++ ws2 ++ r)
  = str "implies(" ++ l ++ str ", " ++ r ++ str ")".
Proof.
  intros Hl Hl' H1 H1' H2 H2' Hr Hr' Hno.
  pose proof (re_search_single l ws1 ws2 r Hl Hl' H1 H1' H2 H2' Hr Hr') as Hm.
  rewrite rewrite_implies_step, Hm. unfold re_sub1. rewrite Hm.
  unfold replace_match.
  rewrite (expand_replacement
             (RMatch [] (l ++ ws1 ++ kw_implies ++ ws2 ++ r) [l; r] []) l r eq_refl).
  cbn [m_before m_after]. rewrite app_nil_r. cbn [app].
  rewrite rewrite_implies_step.
  rewrite (proj2 (re_search_infix _) (function_form_fixed l r Hl' Hno)).
  reflexivity.
Qed.

Lemma rewrite_implies_single_witness :
  rewrite_implies (str "is_connected   implies diameter <= 3")
  = str "implies(is_connected, diameter <= 3)".
Proof.
  apply (rewrite_implies_single (str "is_connected") (str "   ") (str " ")
           (str "diameter <= 3")); try reflexivity; try discriminate.
  intros H. apply contains_spec in H. discriminate H.
Defined.

(** ** The exceptions of an evaluation *)

Lemma plain_bind {A B} (m : outcome A) (f : A -> outcome B) :
  plain_outcome m -> (forall a, plain_outcome (f a)) -> plain_outcome (m ≫= f).
Proof. destruct m as [a|e|]; cbn; auto. Qed.

Ltac plain_cases :=
  repeat match goal with
  | |- plain_outcome (match ?x with _ => _ end) => destruct x
  | |- plain_outcome (if ?x then _ else _) => destruct x
  | |- plain_outcome (let '(_, _) := ?x in _) => destruct x
  end; try exact I.

Lemma plain_to_float n : plain_outcome (to_float n).
Proof. destruct n; cbn; [unfold float_of_int|]; plain_cases. Qed.

Lemma plain_unary_op op v : plain_outcome (unary_op op v).
Proof. unfold unary_op. plain_cases. Qed.

Lemma plain_binary_op op a b : plain_outcome (binary_op op a b).
Proof.
  unfold binary_op.
  destruct op; try exact I;
    (destruct (as_number a) as [[x|f]|]; [| |exact I]);
    (destruct (as_number b) as [[y|g]|]; try exact I);
    try (unfold int_true_div; plain_cases; fail);
    try (apply plain_bind; [apply plain_to_float|]; intros f';
         apply plain_bind; [apply plain_to_float|]; intros g'; plain_cases).
Qed.

Lemma plain_compare_op op a b : plain_outcome (compare_op op a b).
Proof. unfold compare_op. plain_cases. Qed.

Lemma plain_min_max op best rest : plain_outcome (min_max op best rest).
Proof.
  revert best. induction rest as [|x rest IH]; intros best; [exact I|].
  cbn [min_max]. apply plain_bind; [apply plain_compare_op|]. intros r. apply IH.
Qed.

Lemma plain_call f args : plain_outcome (call f args).
Proof.
  unfold call, call_builtin.
  destruct f as [| | | |g]; try exact I.
  destruct g; destruct args as [|v [|w rest]]; try exact I;
    try apply plain_min_max; plain_cases.
Qed.

Lemma plain_eval_constant c : plain_outcome (eval_constant c).
Proof. destruct c; exact I. Qed.

(** The invariant of an evaluation, as [eval_invariant], for properties
    that hold of the outcomes of the operators only. *)
Section EvalOutcomes.

Variable env : gmap ustring value.
Variable Q : forall A, run A -> Prop.

Hypothesis Q_pure : forall A (o : outcome A), plain_outcome o -> Q A (o, []).
Hypothesis Q_bind : forall A B (m : run A) (f : A -> run B),
  Q A m -> (forall a, Q B (f a)) -> Q B (m ≫= f).
Hypothesis Q_visit : forall e, Q unit (visit e).
Hypothesis Q_name : forall id ctx, Q value (eval env (ast.Name id ctx)).

Ltac pure := apply Q_pure;
  first [exact I | apply plain_unary_op | apply plain_binary_op
        | apply plain_compare_op | apply plain_call | apply plain_eval_constant].

Lemma eval_boolop_outcomes ev op values :
  Forall (fun x => Q value (ev x)) values -> Q value (eval_boolop ev op values).
Proof.
  induction 1 as [|x l Hx Hl IH]; [pure|].
  cbn [eval_boolop]. destruct l as [|y l]; [exact Hx|].
  apply Q_bind; [exact Hx|]. intros v.
  destruct (short_circuits op v); [pure | exact IH].
Qed.

Lemma eval_chain_outcomes ev a ops comparators :
  Forall (fun x => Q value (ev x)) comparators ->
  Q value (eval_chain ev a ops comparators).
Proof.
  intros H. revert a ops. induction H as [|c l Hc Hl IH]; intros a ops.
  - destruct ops as [|op [|op' ops]]; pure.
  - destruct ops as [|op ops]; [pure|].
    assert (Q value (b ← ev c; r ← lift (compare_op op a b);
                     if truthy r then eval_chain ev b ops l else mret r)) as Hgen.
    { apply Q_bind; [exact Hc|]. intros b.
      apply Q_bind; [pure|]. intros r.
      destruct (truthy r); [apply IH | pure]. }
    cbn [eval_chain]. destruct ops as [|op' ops]; [|exact Hgen].
    destruct l as [|c' l]; [|exact Hgen].
    apply Q_bind; [exact Hc|]. intros b. pure.
Qed.

Lemma eval_args_outcomes ev args :
  Forall (fun x => Q value (ev x)) args -> Q (list value) (eval_args ev args).
Proof.
  induction 1 as [|x l Hx Hl IH]; [pure|].
  cbn [eval_args]. apply Q_bind; [exact Hx|]. intros v.
  apply Q_bind; [exact IH|]. intros vs. pure.
Qed.

Lemma eval_outcomes e : Q value (eval env e).
Proof.
  induction e as [op values IH|l op r IHl IHr|op operand IH
                  |l ops comparators IHl IH|func args keywords IHf IH
                  |c|id ctx|kind fields] using expr_operands_ind;
    try apply Q_name;
    cbn [eval]; (apply Q_bind; [apply Q_visit|]); intros _.
  - destruct values as [|x [|y l]]; try pure.
    apply eval_boolop_outcomes. exact IH.
  - apply Q_bind; [exact IHl|]. intros a.
    apply Q_bind; [exact IHr|]. intros b. pure.
  - apply Q_bind; [exact IH|]. intros v. pure.
  - apply Q_bind; [exact IHl|]. intros a.
    apply eval_chain_outcomes. exact IH.
  - apply Q_bind; [exact IHf|]. intros f.
    apply Q_bind; [apply eval_args_outcomes; exact IH|].
    intros vs. destruct keywords; pure.
  - pure.
  - pure.
Qed.

End EvalOutcomes.

(** What an evaluation of the embedded values can raise: a [NameError] for
    a name it looked up and did not find, or an exception of an operator. *)
Lemma eval_exceptions (env : gmap ustring value) e :
  match fst (eval env e) with
  | Raise (NameError x) =>
      In (ast.Name x ast.Load) (snd (eval env e)) /\ env !! x = None
  | o => plain_outcome o
  end.
Proof.
  apply (eval_outcomes env
           (fun A m => match fst m with
                       | Raise (NameError x) =>
                           In (ast.Name x ast.Load) (snd m) /\ env !! x = None
                       | o => plain_outcome o
                       end)).
  - intros A [a|[]|] H; cbn in *; tauto.
  - intros A B m f Hm Hf. rewrite bind_run.
    destruct m as [[a|err|] t]; cbn [fst snd] in *.
    + specialize (Hf a). destruct (f a) as [[b|[]|] t']; cbn [fst snd] in *; auto.
      destruct Hf as [Hin Hnone]. split; [apply in_or_app; right; exact Hin | exact Hnone].
    + destruct err; cbn in *; auto.
    + exact I.
  - intros x. exact I.
  - intros id ctx. cbn [eval]. rewrite bind_run. cbn.
    destruct ctx; cbn; try exact I.
    destruct (env !! id) eqn:E; cbn; [exact I | auto].
Qed.

Lemma check_nodes_Some nodes e :
  check_nodes nodes = Some e -> exists n, In n nodes /\ check_node n = Some e.
Proof.
  induction nodes as [|n nodes IH]; simpl; [discriminate|].
  destruct (check_node n) as [e'|] eqn:E.
  - intros [= <-]. exists n. auto.
  - intros H. destruct (IH H) as (m & Hm & Hc). exists m. auto.
Qed.

(** A name of the context: the allowed functions are always there. *)
Lemma context_none (env : list (ustring * value)) x :
  (guard_none_comparisons env ∪ ALLOWED_FUNCS) !! x = None ->
  x ∉ dom ALLOWED_FUNCS /\ x ∉ env.*1.
Proof.
  intros H. apply lookup_union_None in H as [Hg Hf]. split.
  - apply not_elem_of_dom. exact Hf.
  - apply not_elem_of_dom in Hg. rewrite guard_dom in Hg.
    intros Hk. apply Hg, elem_of_union_l, elem_of_list_to_set, Hk.
Qed.

Section Exceptions.

Variable ast_parse : ustring -> outcome ast.mod_.

(** X10.  Where a [NameError] comes from: when [safe_eval_expr] ends with
    a [NameError] on a text that has parsed, the tree has passed
    validation, and the name is an allowed variable that the bindings
    lack and that the evaluation looked up; the names of the allowed
    functions and the flags of guarding never give one. *)
Theorem name_error_origin expr (env : list (ustring * value)) tree x trace :
  ast_parse (rewrite_implies expr) = Ret tree ->
  safe_eval_expr ast_parse expr env = (Raise (NameError x), trace) ->
  check_nodes (ast_walk tree) = None /\
  In x ALLOWED_VARS /\ x ∉ env.*1 /\ In (ast.Name x ast.Load) trace.
Proof.
  intros Hp. rewrite (safe_eval_expr_parsed _ _ _ _ Hp).
  destruct (check_nodes (ast_walk tree)) as [e'|] eqn:Hc.
  - intros [= -> <-]. destruct (check_nodes_ValueError _ _ Hc) as [msg [=]].
  - destruct tree as [body]. rewrite bind_run.
    pose proof (eval_exceptions (guard_none_comparisons env ∪ ALLOWED_FUNCS) body) as Hex.
    destruct (eval (guard_none_comparisons env ∪ ALLOWED_FUNCS) body) as [[v|err|] t] eqn:Hev;
      cbn [fst snd mret run_ret] in *; intros [= -> <-].
    cbn in Hex. destruct Hex as [Hin Hnone].
    destruct (context_none env x Hnone) as [Hnf Hnk].
    split; [reflexivity|]. split; [|split; [exact Hnk | exact Hin]].
    assert (x ∈ ALLOWED_NAMES) as Hx.
    { apply (check_node_name x ast.Load), (proj1 (check_nodes_None _) Hc).
      apply ast_walk_complete, (in_tree_trans _ (ast.N_expr body)).
      - apply (in_tree_child _ (ast.N_mod (ast.Expression body)));
          [apply in_tree_root | left; reflexivity].
      - apply (eval_visits_tree (guard_none_comparisons env ∪ ALLOWED_FUNCS)).
        rewrite Hev. exact Hin. }
    unfold ALLOWED_NAMES in Hx. apply elem_of_union in Hx as [Hx|Hx]; [|contradiction].
    apply elem_of_list_to_set in Hx. apply list_elem_of_In. exact Hx.
Qed.

End Exceptions.

Lemma name_error_origin_witness :
  fst (safe_eval_expr parser.parse_expression (str "n > 0 and max_degree < 3")
         [(str "n", VInt 1); (str "max_degree_is_none", VBool false)])
    = Raise (NameError (str "max_degree")) /\
  In (str "max_degree") ALLOWED_VARS /\
  str "max_degree" ∉ [(str "n", VInt 1); (str "max_degree_is_none", VBool false)].*1.
Proof.
  pose (env := [(str "n", VInt 1); (str "max_degree_is_none", VBool false)]).
  assert (exists trace,
            safe_eval_expr parser.parse_expression (str "n > 0 and max_degree < 3") env
            = (Raise (NameError (str "max_degree")), trace)) as [trace Hrun]
    by (eexists; vm_compute; reflexivity).
  assert (exists tree,
            parser.parse_expression (rewrite_implies (str "n > 0 and max_degree < 3"))
            = Ret tree) as [tree Hp] by (eexists; vm_compute; reflexivity).
  destruct (name_error_origin parser.parse_expression _ env tree _ trace Hp Hrun)
    as (_ & Hvar & Hkey & _).
  fold env. rewrite Hrun. auto.
Defined.
